(** * Snooker column-resize deltas

    A shallow embedding of [ephox.snooker.calc.Deltas]
    (src/main/js/ephox/snooker/calc/Deltas.js) and the properties of
    [neighbours] and [determine].

    Pixel widths, steps and minimum widths are JavaScript numbers that hold
    integers.  A JavaScript number is an IEEE 754 binary64 value: every
    [+] and [-] of the code returns the exact result rounded to 53
    significant bits, or an infinity when it is too large.  The embedding
    keeps the integers the caller passes as [Z] and computes with the
    rounding written out ([JsNumber]).  Reading an array at an index it
    does not have yields [undefined] in JavaScript; the embedding makes that
    visible by running [determine] in an error monad in which such a read
    fails. *)

From Stdlib Require Import ZArith List Lia Bool.
From Stdlib Require String.
Import ListNotations.
Open Scope Z_scope.

(** ** A small error monad for array reads *)

Definition ret {A : Type} (a : A) : option A := Some a.

Definition bind {A B : Type} (m : option A) (k : A -> option B) : option B :=
  match m with
  | Some a => k a
  | None => None
  end.

Notation "x <- m ;; k" := (bind m (fun x => k))
  (at level 61, m at next level, right associativity).

(** ** JavaScript numbers that hold integers *)

Module JsNumber.

(** An integer-valued binary64 number, an infinity, or NaN.  The two zeros
    of binary64 are equal under every operation the code uses and are both
    [Num 0]. *)
Inductive number : Type :=
| Num (z : Z)
| PosInfinity
| NegInfinity
| NaN.

(** [2^53]: every integer up to it in magnitude is a binary64 number. *)
Definition limit : Z := 9007199254740992.

(** [2^1024]: the magnitude from which a rounded result is an infinity. *)
Definition overflow : Z := 2 ^ 1024.

(** Round to nearest, ties to even, on 53 significant bits: the binary64
    number nearest to the integer [z]. *)
Definition round (z : Z) : number :=
  if Z.abs z <=? limit then Num z
  else
    let e := Z.log2 (Z.abs z) + 1 - 53 in
    let q := Z.abs z / 2 ^ e in
    let r := Z.abs z mod 2 ^ e in
    let half := 2 ^ (e - 1) in
    let m := if r <? half then q
             else if half <? r then q + 1
             else if Z.even q then q else q + 1 in
    if overflow <=? m * 2 ^ e
    then (if z <? 0 then NegInfinity else PosInfinity)
    else Num (Z.sgn z * (m * 2 ^ e)).

(** Unary [-]. *)
Definition neg (a : number) : number :=
  match a with
  | Num x => Num (- x)
  | PosInfinity => NegInfinity
  | NegInfinity => PosInfinity
  | NaN => NaN
  end.

(** Binary [+]. *)
Definition add (a b : number) : number :=
  match a, b with
  | NaN, _ | _, NaN => NaN
  | PosInfinity, NegInfinity | NegInfinity, PosInfinity => NaN
  | PosInfinity, _ | _, PosInfinity => PosInfinity
  | NegInfinity, _ | _, NegInfinity => NegInfinity
  | Num x, Num y => round (x + y)
  end.

(** Binary [-]. *)
Definition sub (a b : number) : number := add a (neg b).

End JsNumber.

Module Math.

Import JsNumber.

(** [Math.max(a, b)] *)
Definition max (a b : number) : number :=
  match a, b with
  | NaN, _ | _, NaN => NaN
  | PosInfinity, _ | _, PosInfinity => PosInfinity
  | NegInfinity, x | x, NegInfinity => x
  | Num x, Num y => Num (Z.max x y)
  end.

End Math.

(** ** JavaScript array primitives used by the module *)

Module JsArray.

(** The clamping of a relative index that [Array.prototype.slice] applies
    to both of its arguments: a negative index counts from the end. *)
Definition relative (len k : Z) : Z :=
  if k <? 0 then Z.max (len + k) 0 else Z.min k len.

Section Elements.

Context {A : Type}.

(** [array.length] *)
Definition length (array : list A) : Z := Z.of_nat (List.length array).

(** [array[index]]: defined on [0 .. length-1] only. *)
Definition get (array : list A) (index : Z) : option A :=
  if index <? 0 then None else nth_error array (Z.to_nat index).

(** [array.slice(start, stop)] *)
Definition slice (array : list A) (start stop : Z) : list A :=
  let len := length array in
  let k := relative len start in
  let final := relative len stop in
  firstn (Z.to_nat (final - k)) (skipn (Z.to_nat k) array).

(** [array.slice(start)]: the end defaults to the length. *)
Definition slice_from (array : list A) (start : Z) : list A :=
  slice array start (length array).

(** [a.concat(b)] *)
Definition concat (a b : list A) : list A := a ++ b.

End Elements.

End JsArray.

(** ** Imported helpers *)

Module Arr.
(** Modelled from the spec: [ephox.compass.Arr] is not among the sources;
    [Arr.map] applies a function to every element, in order, giving a
    sequence of the same length. *)
Definition map {A B : Type} (xs : list A) (f : A -> B) : list B :=
  List.map f xs.
End Arr.

Module Fun.
(** Modelled from the spec: [ephox.peanut.Fun] is not among the sources;
    [Fun.constant(v)] is the function that ignores its argument and
    returns [v]. *)
Definition constant {A B : Type} (v : B) : A -> B := fun _ => v.
End Fun.

Module ColumnContext.

(** Modelled from the spec: [ephox.snooker.calc.ColumnContext] is not among
    the sources; it is the tagged value
    None, Only(index), Left(index, next), Middle(prev, index, next),
    Right(prev, index), consumed by a five-way [fold]. *)
Inductive t : Type :=
| none
| only (index : Z)
| left (index next : Z)
| middle (prev index next : Z)
| right (prev index : Z).

Definition fold {A : Type}
    (onNone : unit -> A)
    (onOnly : Z -> A)
    (onLeft : Z -> Z -> A)
    (onMiddle : Z -> Z -> Z -> A)
    (onRight : Z -> Z -> A)
    (context : t) : A :=
  match context with
  | none => onNone tt
  | only index => onOnly index
  | left index next => onLeft index next
  | middle prev index next => onMiddle prev index next
  | right prev index => onRight prev index
  end.

End ColumnContext.

(** ** The module itself *)

Module Deltas.

Import JsNumber JsArray.

(** Based on the column index, identify the context.  Array lengths and the
    indices compared with them are far below [2^53], where the arithmetic
    of JavaScript numbers is the arithmetic of integers. *)
Definition neighbours (input : list Z) (index : Z) : ColumnContext.t :=
  if length input =? 0 then ColumnContext.none
  else if length input =? 1 then ColumnContext.only 0
  else if index =? 0 then ColumnContext.left 0 1
  else if index =? length input - 1
    then ColumnContext.right (index - 1) index
  else if (0 <? index) && (index <? length input - 1)
    then ColumnContext.middle (index - 1) index (index + 1)
  else ColumnContext.none.

Definition zero (array : list Z) : list number :=
  Arr.map array (Fun.constant (Num 0)).

Definition onOnly (result : list Z) (step min : Z) (index : Z)
  : option (list number) :=
  a <- get result index ;;
  let newNext := Math.max (Num min) (add (Num a) (Num step)) in
  b <- get result index ;;
  ret [ sub newNext (Num b) ].

Definition onChange (result : list Z) (step min : Z) (index next : Z)
  : option (list number) :=
  if 0 <=? step then
    a <- get result next ;;
    let newNext := Math.max (Num min) (sub (Num a) (Num step)) in
    b <- get result next ;;
    ret (concat (concat (zero (slice result 0 index))
                        [ Num step; sub newNext (Num b) ])
                (zero (slice_from result (next + 1))))
  else
    a <- get result index ;;
    let newThis := Math.max (Num min) (add (Num a) (Num step)) in
    b <- get result index ;;
    let diffx := sub (Num b) newThis in
    c <- get result index ;;
    ret (concat (concat (zero (slice result 0 index))
                        [ sub newThis (Num c); diffx ])
                (zero (slice_from result (next + 1)))).

Definition onRight (result : list Z) (step min : Z) (prev index : Z)
  : option (list number) :=
  if 0 <=? step then
    ret (concat (zero (slice result 0 index)) [ Num step ])
  else
    a <- get result index ;;
    let size := Math.max (Num min) (add (Num a) (Num step)) in
    b <- get result index ;;
    ret (concat (zero (slice result 0 index)) [ sub size (Num b) ]).

(** Calculate the offsets to apply to each column width (not the absolute
    widths themselves) based on a resize at column [column] of step
    [step].  The minimum column width allowed is [min].  The negation of
    the step is exact. *)
Definition determine (input : list Z) (column step min : Z)
  : option (list number) :=
  let step := - step in
  let result := slice_from input 0 in
  let context := neighbours input column in
  let onNone := Fun.constant (ret (zero result)) in
  let onLeft := onChange result step min in
  let onMiddle := fun (prev index next : Z) =>
                    onChange result step min index next in
  ColumnContext.fold onNone (onOnly result step min) onLeft onMiddle
                     (onRight result step min) context.

End Deltas.

(** ** Menu helpers of the table plugin

    The helpers that build the cell-style menus and the header toggles of
    the table plugin.  They talk to the editor through two of its methods;
    the editor class is not among the sources, so its state is an abstract
    type threaded through the calls and the two methods are an interface.
    The object [{ [key]: value }] handed to a command is the one-entry list
    [[(key, value)]]. *)

Module TableUi.

Import String.

(** [interface Item { readonly value: string }] *)
Class Item (T : Type) := { value : T -> string }.

(** [editor.execCommand(command, ui, value)] and
    [editor.queryCommandValue(command)]. *)
Class EditorApi (Editor : Type) := {
  execCommand : string -> bool -> list (string * string) -> Editor -> Editor;
  queryCommandValue : string -> Editor -> string
}.

(** The [data] handed to the action of a colour swatch: [{ value }]. *)
Record SwatchData : Type := { swatchValue : string }.

#[export] Instance SwatchData_Item : Item SwatchData :=
  {| value := swatchValue |}.

Record InitData (Choice : Type) : Type := {
  colors : option (list Choice);
  allowCustomColors : bool
}.

(** [Menu.FancyMenuItemSpec], with the fields the helper fills in. *)
Record FancyMenuItemSpec (Choice Editor : Type) : Type := {
  type : string;
  fancytype : string;
  initData : InitData Choice;
  onAction : SwatchData -> Editor -> Editor
}.

Arguments colors {Choice}.
Arguments allowCustomColors {Choice}.
Arguments type {Choice Editor}.
Arguments fancytype {Choice Editor}.
Arguments initData {Choice Editor}.
Arguments onAction {Choice Editor}.

Section Helpers.

Context {Editor : Type} `{EditorApi Editor}.

Definition applyTableCellStyle {T : Type} `{Item T} (style : string)
  : T -> Editor -> Editor :=
  fun item =>
    execCommand "mceTableApplyCellStyle" false [ (style, value item) ].

Definition fixColorValue {R : Type} (value : string) (setColor : string -> R)
  : R :=
  if String.eqb value "remove" then setColor ""%string
  else setColor value.

Definition generateColorSelector {Choice : Type}
    (colorList : list Choice) (style : string)
  : list (FancyMenuItemSpec Choice Editor) :=
  [ {| type := "fancymenuitem";
       fancytype := "colorswatch";
       initData :=
         {| colors := if (0 <? Z.of_nat (List.length colorList))%Z
                      then Some colorList else None;
            allowCustomColors := false |};
       onAction := fun data =>
         fixColorValue (value data) (fun value =>
           execCommand "mceTableApplyCellStyle" false [ (style, value) ])
    |} ].

Definition changeRowHeader (editor : Editor) : Editor :=
  let currentType := queryCommandValue "mceTableRowType" editor in
  let newType :=
    if String.eqb currentType "header" then "body"%string
    else "header"%string in
  execCommand "mceTableRowType" false [ ("type"%string, newType) ] editor.

Definition changeColumnHeader (editor : Editor) : Editor :=
  let currentType := queryCommandValue "mceTableColType" editor in
  let newType :=
    if String.eqb currentType "th" then "td"%string else "th"%string in
  execCommand "mceTableColType" false [ ("type"%string, newType) ] editor.

End Helpers.

(** An editor that only remembers the last row and column type it was
    given; it shows that the assumptions made on the editor below can be
    met. *)
Record TypesOnly : Type := { rowType : string; colType : string }.

#[export] Instance TypesOnly_Api : EditorApi TypesOnly := {|
  execCommand := fun command _ args editor =>
    match args with
    | [ (_, t) ] =>
        if String.eqb command "mceTableRowType"
        then {| rowType := t; colType := colType editor |}
        else if String.eqb command "mceTableColType"
        then {| rowType := rowType editor; colType := t |}
        else editor
    | _ => editor
    end;
  queryCommandValue := fun command editor =>
    if String.eqb command "mceTableRowType" then rowType editor
    else if String.eqb command "mceTableColType" then colType editor
    else ""%string
|}.

End TableUi.

(** ** Names of the system events of Alloy *)

Module SystemEvents.

Import String.

Definition alloy_tap : unit -> string := Fun.constant "alloy.tap"%string.

Definition focus : unit -> string := Fun.constant "alloy.focus"%string.
Definition postBlur : unit -> string := Fun.constant "alloy.blur.post"%string.
Definition receive : unit -> string := Fun.constant "alloy.receive"%string.
Definition execute : unit -> string := Fun.constant "alloy.execute"%string.
Definition focusItem : unit -> string :=
  Fun.constant "alloy.focus.item"%string.
Definition tap : unit -> string := alloy_tap.

(** [PlatformDetection] and [NativeEvents] are not among the sources: whether
    the device is a touch device and the native click event are
    parameters. *)
Definition tapOrClick (isTouch : bool) (click : unit -> string)
  : unit -> string :=
  if isTouch then alloy_tap else click.

Definition longpress : unit -> string :=
  Fun.constant "alloy.longpress"%string.
Definition sandboxClose : unit -> string :=
  Fun.constant "alloy.sandbox.close"%string.
Definition typeaheadCancel : unit -> string :=
  Fun.constant "alloy.typeahead.cancel"%string.
Definition systemInit : unit -> string :=
  Fun.constant "alloy.system.init"%string.
Definition windowScroll : unit -> string :=
  Fun.constant "alloy.system.scroll"%string.
Definition attachedToDom : unit -> string :=
  Fun.constant "alloy.system.attached"%string.
Definition detachedFromDom : unit -> string :=
  Fun.constant "alloy.system.detached"%string.
Definition dismissRequested : unit -> string :=
  Fun.constant "alloy.system.dismissRequested"%string.
Definition slotVisibility : unit -> string :=
  Fun.constant "alloy.slotcontainer.visibility"%string.
Definition changeTab : unit -> string :=
  Fun.constant "alloy.change.tab"%string.
Definition dismissTab : unit -> string :=
  Fun.constant "alloy.dismiss.tab"%string.

(** The events the module exports, [tapOrClick] apart. *)
Definition exported : list (unit -> string) :=
  [ focus; postBlur; receive; execute; focusItem; tap; longpress;
    sandboxClose; systemInit; typeaheadCancel; windowScroll;
    dismissRequested; attachedToDom; detachedFromDom; changeTab;
    dismissTab; slotVisibility ].

End SystemEvents.

Import JsNumber JsArray Deltas.

(** ** Vocabulary of the statements *)

(** The integers that are binary64 numbers: rounding leaves them as they
    are.  Every width, step and minimum the code receives is one. *)
Definition double (z : Z) : Prop := round z = Num z.

(** [2^52]: sums and differences of two integers of at most this magnitude
    are at most [2^53] in magnitude, so the code computes them exactly. *)
Definition safe : Z := 4503599627370496.

(** Total of a sequence of integer offsets. *)
Definition sum (deltas : list Z) : Z := fold_right Z.add 0 deltas.

(** The sequence that holds the entries [mid] after [before] copies of
    [z] and before [after] copies of [z]. *)
Definition around {A : Type} (z : A) (before : nat) (mid : list A)
    (after : nat) : list A :=
  repeat z before ++ mid ++ repeat z after.

(** The widths a caller obtains from integer offsets: each offset is added
    to the width of its column. *)
Definition resized (widths deltas : list Z) : list Z :=
  List.map (fun wd => fst wd + snd wd) (combine widths deltas).

(** The width a handler gives a column it narrows or widens by [step],
    as the code computes it: [Math.max(min, w + step)]. *)
Definition clipped (min w step : Z) : number :=
  Math.max (Num min) (add (Num w) (Num step)).

(** Replays the reads of a handler once the width they return is known. *)
Ltac read_width H := unfold bind, ret; rewrite ?H; cbv zeta.

(** ** Arithmetic of JavaScript numbers on integers *)

Arguments round : simpl never.

Lemma limit_is_power : limit = 2 ^ 53 /\ safe = 2 ^ 52.
Proof. split; reflexivity. Qed.

Lemma round_exact (z : Z) : Z.abs z <= limit -> round z = Num z.
Proof.
  intros Hz; unfold round.
  destruct (Z.leb_spec (Z.abs z) limit); [reflexivity|lia].
Qed.

Lemma add_exact (x y : Z) :
  Z.abs (x + y) <= limit -> add (Num x) (Num y) = Num (x + y).
Proof. intros Hz; simpl; now apply round_exact. Qed.

Lemma sub_exact (x y : Z) :
  Z.abs (x - y) <= limit -> sub (Num x) (Num y) = Num (x - y).
Proof.
  intros Hz; unfold sub; simpl.
  rewrite Z.add_opp_r; now apply round_exact.
Qed.

Lemma add_zero_double (w : Z) : double w -> add (Num w) (Num 0) = Num w.
Proof. intros Hw; simpl; now rewrite Z.add_0_r. Qed.

Lemma sub_zero_double (w : Z) : double w -> sub (Num w) (Num 0) = Num w.
Proof. intros Hw; unfold sub; simpl; now rewrite Z.add_0_r. Qed.

Lemma sub_self (w : Z) : sub (Num w) (Num w) = Num 0.
Proof. unfold sub; simpl; now rewrite Z.add_opp_diag_r. Qed.

Lemma safe_double (z : Z) : Z.abs z <= safe -> double z.
Proof. intros Hz; apply round_exact; unfold safe, limit in *; lia. Qed.

(** Replaces the rounded sums and differences of the goal by the exact
    ones, when they stay within [2^53]. *)
Ltac exact_arith :=
  repeat (first [ rewrite add_exact by (unfold limit, safe in *; lia)
                | rewrite sub_exact by (unfold limit, safe in *; lia)
                | progress simpl Math.max ]).

(** ** Array primitives *)

Section ArrayFacts.

Context {A : Type}.
Variable array : list A.

Lemma length_nonneg : 0 <= length array.
Proof. unfold length; lia. Qed.

Lemma relative_in_range (k : Z) :
  0 <= k <= length array -> relative (length array) k = k.
Proof.
  intros Hk; unfold relative.
  destruct (Z.ltb_spec k 0); lia.
Qed.

Lemma slice_prefix (n : Z) :
  0 <= n <= length array ->
  slice array 0 n = firstn (Z.to_nat n) array.
Proof.
  intros Hn; unfold slice.
  rewrite (relative_in_range n) by assumption.
  rewrite (relative_in_range 0) by (pose proof length_nonneg; lia).
  now rewrite Z.sub_0_r.
Qed.

Lemma slice_suffix (n : Z) :
  0 <= n <= length array ->
  slice_from array n = skipn (Z.to_nat n) array.
Proof.
  intros Hn; unfold slice_from, slice.
  rewrite (relative_in_range n) by assumption.
  rewrite (relative_in_range (length array)) by lia.
  apply firstn_all2.
  rewrite length_skipn; unfold length in *; lia.
Qed.

Lemma slice_copy : slice_from array 0 = array.
Proof.
  rewrite slice_suffix by (pose proof length_nonneg; lia).
  reflexivity.
Qed.

Lemma get_in_range (i : Z) :
  0 <= i < length array -> exists w, get array i = Some w.
Proof.
  intros Hi; unfold get.
  destruct (Z.ltb_spec i 0); [lia|].
  destruct (nth_error array (Z.to_nat i)) as [w|] eqn:E; [now exists w|].
  apply nth_error_None in E; unfold length in Hi; lia.
Qed.

Lemma get_Some_range (i : Z) (w : A) :
  get array i = Some w -> 0 <= i < length array.
Proof.
  unfold get; destruct (Z.ltb_spec i 0); [discriminate|].
  intros E.
  assert (nth_error array (Z.to_nat i) <> None) as Hn by congruence.
  apply nth_error_Some in Hn; unfold length; lia.
Qed.

End ArrayFacts.

Lemma zero_repeat (array : list Z) :
  zero array = repeat (Num 0) (List.length array).
Proof.
  unfold zero, Arr.map, Fun.constant.
  induction array as [|w ws IH]; simpl; [reflexivity|now rewrite IH].
Qed.

Lemma get_map_Num (deltas : list Z) (j : Z) :
  get (List.map Num deltas) j = option_map Num (get deltas j).
Proof.
  unfold get; destruct (j <? 0); [reflexivity|].
  apply nth_error_map.
Qed.

(** ** Sequences that are constant away from a few positions *)

Lemma sum_app (xs ys : list Z) : sum (xs ++ ys) = sum xs + sum ys.
Proof. induction xs as [|x xs IH]; simpl; lia. Qed.

Lemma sum_repeat_zero (n : nat) : sum (repeat 0 n) = 0.
Proof. induction n as [|n IH]; simpl; lia. Qed.

Section Around.

Context {A : Type}.
Variables (z : A) (before after : nat) (mid : list A).

Lemma length_around :
  List.length (around z before mid after)
  = (before + List.length mid + after)%nat.
Proof.
  unfold around; rewrite !length_app, !repeat_length; lia.
Qed.

Lemma get_around_mid (k : nat) :
  get (around z before mid after) (Z.of_nat before + Z.of_nat k)
  = match nth_error mid k with
    | Some d => Some d
    | None => get (repeat z after) (Z.of_nat k - Z.of_nat (List.length mid))
    end.
Proof.
  unfold get, around.
  destruct (Z.ltb_spec (Z.of_nat before + Z.of_nat k) 0); [lia|].
  replace (Z.to_nat (Z.of_nat before + Z.of_nat k)) with (before + k)%nat
    by lia.
  rewrite nth_error_app2 by (rewrite repeat_length; lia).
  rewrite repeat_length.
  replace (before + k - before)%nat with k by lia.
  destruct (nth_error mid k) as [d|] eqn:E.
  - rewrite nth_error_app1 by (apply nth_error_Some; congruence).
    assumption.
  - apply nth_error_None in E.
    rewrite nth_error_app2 by assumption.
    destruct (Z.ltb_spec (Z.of_nat k - Z.of_nat (List.length mid)) 0);
      [lia|].
    f_equal; lia.
Qed.

Lemma get_repeat (n : nat) (j : Z) :
  0 <= j < Z.of_nat n -> get (repeat z n) j = Some z.
Proof.
  intros Hj; unfold get.
  destruct (Z.ltb_spec j 0); [lia|].
  apply nth_error_repeat; lia.
Qed.

Lemma get_around_outside (j : Z) :
  0 <= j < length (around z before mid after) ->
  j < Z.of_nat before \/ Z.of_nat (before + List.length mid) <= j ->
  get (around z before mid after) j = Some z.
Proof.
  unfold length; rewrite length_around; intros Hj [Hlow|Hhigh].
  - unfold get, around.
    destruct (Z.ltb_spec j 0); [lia|].
    rewrite nth_error_app1 by (rewrite repeat_length; lia).
    apply nth_error_repeat; lia.
  - replace j with (Z.of_nat before + Z.of_nat (Z.to_nat j - before)) by lia.
    rewrite get_around_mid.
    destruct (nth_error mid (Z.to_nat j - before)) as [d|] eqn:E.
    + assert (nth_error mid (Z.to_nat j - before) <> None) as Hn
        by congruence.
      apply nth_error_Some in Hn; lia.
    + apply get_repeat; lia.
Qed.

End Around.

Lemma around_repeat {A : Type} (z : A) (n k m : nat) :
  around z n (repeat z k) m = repeat z (n + k + m).
Proof. unfold around; now rewrite <- !repeat_app, Nat.add_assoc. Qed.

Lemma sum_around (before after : nat) (mid : list Z) :
  sum (around 0 before mid after) = sum mid.
Proof.
  unfold around; rewrite !sum_app, !sum_repeat_zero; lia.
Qed.

Lemma map_Num_around (before after : nat) (mid : list Z) :
  List.map Num (around 0 before mid after)
  = around (Num 0) before (List.map Num mid) after.
Proof.
  unfold around; now rewrite !map_app, !map_repeat.
Qed.

Section Positions.

Context {A : Type}.
Variables (z : A) (index : Z) (after : nat).
Hypothesis index_nonneg : 0 <= index.

Lemma get_around_first (a : A) (rest : list A) :
  get (around z (Z.to_nat index) (a :: rest) after) index = Some a.
Proof.
  replace index with (Z.of_nat (Z.to_nat index) + Z.of_nat 0) at 2 by lia.
  now rewrite get_around_mid.
Qed.

Lemma get_around_second (a b : A) (rest : list A) :
  get (around z (Z.to_nat index) (a :: b :: rest) after) (index + 1)
  = Some b.
Proof.
  replace (index + 1) with (Z.of_nat (Z.to_nat index) + Z.of_nat 1) by lia.
  now rewrite get_around_mid.
Qed.

End Positions.

(** ** The handlers of [determine], one per column context *)

Section Handlers.

Variables (result : list Z) (step min : Z).

Lemma zero_prefix (index : Z) :
  0 <= index <= length result ->
  zero (slice result 0 index) = repeat (Num 0) (Z.to_nat index).
Proof.
  intros Hi.
  rewrite slice_prefix, zero_repeat, length_firstn by assumption.
  f_equal; unfold length in Hi; lia.
Qed.

Lemma zero_suffix (index : Z) :
  0 <= index <= length result ->
  zero (slice_from result index)
  = repeat (Num 0) (List.length result - Z.to_nat index).
Proof.
  intros Hi.
  now rewrite slice_suffix, zero_repeat, length_skipn by assumption.
Qed.

Lemma onOnly_single (w index : Z) :
  get result index = Some w ->
  onOnly result step min index
  = Some [sub (Math.max (Num min) (add (Num w) (Num step))) (Num w)].
Proof. intros Hw; unfold onOnly; now read_width Hw. Qed.

Lemma onChange_grow (index w : Z) :
  0 <= step -> 0 <= index ->
  get result (index + 1) = Some w ->
  onChange result step min index (index + 1)
  = Some (around (Num 0) (Z.to_nat index)
                 [Num step;
                  sub (Math.max (Num min) (sub (Num w) (Num step))) (Num w)]
                 (List.length result - Z.to_nat (index + 2))).
Proof.
  intros Hstep Hindex Hw; unfold onChange.
  apply Z.leb_le in Hstep; rewrite Hstep.
  pose proof (get_Some_range _ _ _ Hw) as Hrange.
  read_width Hw; unfold concat, around.
  rewrite zero_prefix, zero_suffix by lia.
  replace (index + 1 + 1) with (index + 2) by lia.
  now rewrite <- app_assoc.
Qed.

Lemma onChange_shrink (index w : Z) :
  step < 0 -> index + 1 < length result ->
  get result index = Some w ->
  onChange result step min index (index + 1)
  = Some (around (Num 0) (Z.to_nat index)
                 [sub (Math.max (Num min) (add (Num w) (Num step))) (Num w);
                  sub (Num w) (Math.max (Num min) (add (Num w) (Num step)))]
                 (List.length result - Z.to_nat (index + 2))).
Proof.
  intros Hstep Hnext Hw; unfold onChange.
  apply Z.leb_gt in Hstep; rewrite Hstep.
  pose proof (get_Some_range _ _ _ Hw) as Hrange.
  read_width Hw; unfold concat, around.
  rewrite zero_prefix, zero_suffix by lia.
  replace (index + 1 + 1) with (index + 2) by lia.
  now rewrite <- app_assoc.
Qed.

Lemma onRight_grow (prev index : Z) :
  0 <= step -> 0 <= index <= length result ->
  onRight result step min prev index
  = Some (around (Num 0) (Z.to_nat index) [Num step] 0).
Proof.
  intros Hstep Hindex; unfold onRight.
  apply Z.leb_le in Hstep; rewrite Hstep.
  unfold ret, concat, around.
  now rewrite zero_prefix, app_nil_r by lia.
Qed.

Lemma onRight_shrink (prev index w : Z) :
  step < 0 ->
  get result index = Some w ->
  onRight result step min prev index
  = Some (around (Num 0) (Z.to_nat index)
                 [sub (Math.max (Num min) (add (Num w) (Num step))) (Num w)]
                 0).
Proof.
  intros Hstep Hw; unfold onRight.
  apply Z.leb_gt in Hstep; rewrite Hstep.
  pose proof (get_Some_range _ _ _ Hw) as Hrange.
  read_width Hw; unfold concat, around.
  now rewrite zero_prefix, app_nil_r by lia.
Qed.

End Handlers.

(** ** Which handler [determine] runs *)

Section Dispatch.

Variables (input : list Z) (column step min : Z).

Lemma neighbours_inner :
  0 <= column < length input - 1 ->
  neighbours input column = ColumnContext.left column (column + 1)
  \/ neighbours input column
     = ColumnContext.middle (column - 1) column (column + 1).
Proof.
  intros Hc; unfold neighbours.
  destruct (Z.eqb_spec (length input) 0); [lia|].
  destruct (Z.eqb_spec (length input) 1); [lia|].
  destruct (Z.eqb_spec column 0) as [->|]; [now left|].
  destruct (Z.eqb_spec column (length input - 1)); [lia|].
  destruct (Z.ltb_spec 0 column); [|lia].
  destruct (Z.ltb_spec column (length input - 1)); [|lia].
  now right.
Qed.

Lemma neighbours_last :
  2 <= length input -> column = length input - 1 ->
  neighbours input column = ColumnContext.right (column - 1) column.
Proof.
  intros Hlen Hc; unfold neighbours.
  destruct (Z.eqb_spec (length input) 0); [lia|].
  destruct (Z.eqb_spec (length input) 1); [lia|].
  destruct (Z.eqb_spec column 0); [lia|].
  destruct (Z.eqb_spec column (length input - 1)); [|lia].
  reflexivity.
Qed.

Lemma neighbours_outside :
  2 <= length input -> column < 0 \/ length input - 1 < column ->
  neighbours input column = ColumnContext.none.
Proof.
  intros Hlen Hc; unfold neighbours.
  destruct (Z.eqb_spec (length input) 0); [lia|].
  destruct (Z.eqb_spec (length input) 1); [lia|].
  destruct (Z.eqb_spec column 0); [lia|].
  destruct (Z.eqb_spec column (length input - 1)); [lia|].
  destruct (Z.ltb_spec 0 column); [|reflexivity].
  destruct (Z.ltb_spec column (length input - 1)); [lia|reflexivity].
Qed.

Lemma neighbours_single :
  length input = 1 -> neighbours input column = ColumnContext.only 0.
Proof. intros Hlen; unfold neighbours; now rewrite Hlen. Qed.

Lemma determine_inner :
  0 <= column < length input - 1 ->
  determine input column step min
  = onChange input (- step) min column (column + 1).
Proof.
  intros Hc; unfold determine; rewrite slice_copy.
  destruct (neighbours_inner Hc) as [-> | ->]; reflexivity.
Qed.

Lemma determine_last :
  2 <= length input -> column = length input - 1 ->
  determine input column step min
  = onRight input (- step) min (column - 1) column.
Proof.
  intros Hlen Hc; unfold determine; rewrite slice_copy.
  now rewrite neighbours_last.
Qed.

Lemma determine_outside :
  2 <= length input -> column < 0 \/ length input - 1 < column ->
  determine input column step min = Some (zero input).
Proof.
  intros Hlen Hc; unfold determine; rewrite slice_copy.
  now rewrite neighbours_outside.
Qed.

Lemma determine_single :
  length input = 1 ->
  determine input column step min = onOnly input (- step) min 0.
Proof.
  intros Hlen; unfold determine; rewrite slice_copy.
  now rewrite neighbours_single.
Qed.

Lemma determine_empty :
  length input = 0 -> determine input column step min = Some [].
Proof.
  intros Hlen; unfold determine, neighbours; rewrite Hlen; simpl.
  destruct input; [reflexivity|discriminate].
Qed.

End Dispatch.

(** ** A resize seen from the columns it touches

    The offsets of a resize inside the table depend on the two columns at
    the dragged boundary only, and those at the right edge on the last
    column only; the lemmas below expose the input as the columns before,
    the touched columns and the columns after. *)

Lemma get_app_here {A : Type} (pre post : list A) (a : A) :
  get (pre ++ a :: post) (Z.of_nat (List.length pre)) = Some a.
Proof.
  unfold get.
  destruct (Z.ltb_spec (Z.of_nat (List.length pre)) 0); [lia|].
  rewrite Nat2Z.id, nth_error_app2 by lia.
  now rewrite Nat.sub_diag.
Qed.

Lemma get_app_next {A : Type} (pre post : list A) (a b : A) :
  get (pre ++ a :: b :: post) (Z.of_nat (List.length pre) + 1) = Some b.
Proof.
  replace (pre ++ a :: b :: post) with ((pre ++ [a]) ++ b :: post)
    by now rewrite <- app_assoc.
  replace (Z.of_nat (List.length pre) + 1)
    with (Z.of_nat (List.length (pre ++ [a])))
    by (rewrite length_app; simpl; lia).
  apply get_app_here.
Qed.

Lemma split_at_pair (widths : list Z) (index : Z) :
  0 <= index < length widths - 1 ->
  exists pre a b post,
    widths = pre ++ a :: b :: post /\ index = Z.of_nat (List.length pre).
Proof.
  intros Hindex; unfold length in Hindex.
  pose proof (firstn_skipn (Z.to_nat index) widths) as Hsplit.
  destruct (skipn (Z.to_nat index) widths) as [|a [|b post]] eqn:Hrest.
  - apply (f_equal (@List.length Z)) in Hrest.
    rewrite length_skipn in Hrest; simpl in Hrest; lia.
  - apply (f_equal (@List.length Z)) in Hrest.
    rewrite length_skipn in Hrest; simpl in Hrest; lia.
  - exists (firstn (Z.to_nat index) widths), a, b, post.
    split; [now symmetry|].
    rewrite length_firstn; lia.
Qed.

Lemma split_at_last (widths : list Z) :
  1 <= length widths ->
  exists pre a,
    widths = pre ++ [a] /\ length widths - 1 = Z.of_nat (List.length pre).
Proof.
  intros Hlen; unfold length in *.
  destruct (exists_last (l := widths)) as (pre & a & ->).
  - intros ->; simpl in Hlen; lia.
  - exists pre, a; split; [reflexivity|].
    rewrite length_app; simpl; lia.
Qed.

Lemma clipped_exact (min w step : Z) :
  Z.abs (w + step) <= limit ->
  clipped min w step = Num (Z.max min (w + step)).
Proof. intros Hz; unfold clipped; now rewrite add_exact. Qed.

Section Touched.

Variables (pre post : list Z) (a b step min : Z).

Lemma determine_at_pair :
  determine (pre ++ a :: b :: post) (Z.of_nat (List.length pre)) step min
  = Some (around (Num 0) (List.length pre)
            (if 0 <? step
             then [sub (clipped min a (- step)) (Num a);
                   sub (Num a) (clipped min a (- step))]
             else [Num (- step); sub (clipped min b step) (Num b)])
            (List.length post)).
Proof.
  assert (0 <= Z.of_nat (List.length pre)
          < length (pre ++ a :: b :: post) - 1) as Hindex
    by (unfold length; rewrite length_app; simpl; lia).
  rewrite determine_inner by exact Hindex.
  assert (List.length (pre ++ a :: b :: post)
          - Z.to_nat (Z.of_nat (List.length pre) + 2)
          = List.length post)%nat as Hpost
    by (rewrite length_app; simpl; lia).
  destruct (Z.ltb_spec 0 step) as [Hshrink|Hgrow].
  - rewrite (onChange_shrink _ _ _ _ a);
      [|lia|lia|apply get_app_here].
    now rewrite Hpost, Nat2Z.id.
  - rewrite (onChange_grow _ _ _ _ b);
      [|lia|lia|apply get_app_next].
    rewrite Hpost, Nat2Z.id.
    unfold clipped, sub; simpl neg.
    now rewrite Z.opp_involutive.
Qed.

Lemma determine_at_last :
  pre <> [] ->
  determine (pre ++ [a]) (Z.of_nat (List.length pre)) step min
  = Some (repeat (Num 0) (List.length pre)
          ++ [if 0 <? step then sub (clipped min a (- step)) (Num a)
              else Num (- step)]).
Proof.
  intros Hpre.
  assert (2 <= length (pre ++ [a])) as Hlen.
  { unfold length; rewrite length_app; simpl.
    destruct pre; [congruence|simpl; lia]. }
  assert (Z.of_nat (List.length pre) = length (pre ++ [a]) - 1) as Hindex
    by (unfold length; rewrite length_app; simpl; lia).
  rewrite determine_last by assumption.
  destruct (Z.ltb_spec 0 step) as [Hshrink|Hgrow].
  - rewrite (onRight_shrink _ _ _ _ _ a); [|lia|apply get_app_here].
    unfold around; now rewrite Nat2Z.id.
  - rewrite onRight_grow by lia.
    unfold around; now rewrite Nat2Z.id.
Qed.

Lemma determine_at_only :
  determine [a] 0 step min = Some [sub (clipped min a (- step)) (Num a)].
Proof.
  rewrite determine_single by reflexivity.
  now rewrite (onOnly_single _ _ _ a) by reflexivity.
Qed.

End Touched.

Lemma determine_cases (widths : list Z) (index step min : Z) :
  determine widths index step min
  = Some (repeat (Num 0) (List.length widths))
  \/ (exists a,
         widths = [a]
         /\ determine widths index step min
            = Some [sub (clipped min a (- step)) (Num a)])
  \/ (exists pre a b post,
         widths = pre ++ a :: b :: post
         /\ index = Z.of_nat (List.length pre)
         /\ determine widths index step min
            = Some (around (Num 0) (List.length pre)
                      (if 0 <? step
                       then [sub (clipped min a (- step)) (Num a);
                             sub (Num a) (clipped min a (- step))]
                       else [Num (- step);
                             sub (clipped min b step) (Num b)])
                      (List.length post)))
  \/ (exists pre a,
         widths = pre ++ [a]
         /\ pre <> []
         /\ index = Z.of_nat (List.length pre)
         /\ determine widths index step min
            = Some (repeat (Num 0) (List.length pre)
                    ++ [if 0 <? step
                        then sub (clipped min a (- step)) (Num a)
                        else Num (- step)])).
Proof.
  pose proof (length_nonneg widths) as Hlen.
  destruct (Z.eq_dec (length widths) 0) as [Hempty|Hsome].
  { left; rewrite determine_empty by assumption.
    destruct widths; [reflexivity|].
    unfold length in Hempty; simpl in Hempty; lia. }
  destruct (Z.eq_dec (length widths) 1) as [Hone|Hmany].
  { right; left.
    destruct widths as [|a [|b rest]];
      try (unfold length in Hone; simpl in Hone; lia).
    exists a; split; [reflexivity|].
    rewrite determine_single by reflexivity.
    now rewrite (onOnly_single _ _ _ a) by reflexivity. }
  destruct (Z_lt_ge_dec index 0) as [Hneg|Hpos].
  { left; rewrite determine_outside by lia; now rewrite zero_repeat. }
  destruct (Z_lt_ge_dec (length widths - 1) index) as [Hbig|Hin].
  { left; rewrite determine_outside by lia; now rewrite zero_repeat. }
  destruct (Z.eq_dec index (length widths - 1)) as [Hlast|Hinner].
  - right; right; right.
    destruct (split_at_last widths) as (pre & a & -> & Hpre); [lia|].
    assert (pre <> []) as Hne
      by (intros ->; unfold length in Hmany; simpl in Hmany; lia).
    exists pre, a; split; [reflexivity|]; split; [exact Hne|].
    split; [lia|].
    replace index with (Z.of_nat (List.length pre)) by lia.
    now apply determine_at_last.
  - right; right; left.
    destruct (split_at_pair widths index) as (pre & a & b & post & -> & ->);
      [lia|].
    exists pre, a, b, post; split; [reflexivity|]; split; [reflexivity|].
    apply determine_at_pair.
Qed.

(** Whatever the index, the result exists and is zeros around at most two
    computed entries, which sit at the column and its right neighbour. *)
Lemma determine_shape (widths : list Z) (index step min : Z) :
  exists (n : nat) (mid : list number) (m : nat),
    determine widths index step min = Some (around (Num 0) n mid m)
    /\ (n + List.length mid + m = List.length widths)%nat
    /\ (mid = []
        \/ List.length widths = 1%nat
        \/ (0 <= index /\ n = Z.to_nat index
            /\ (List.length mid <= 2)%nat)).
Proof.
  destruct (determine_cases widths index step min)
    as [E|[(a & -> & E)|[(pre & a & b & post & -> & -> & E)
                        |(pre & a & -> & Hne & -> & E)]]].
  - exists (List.length widths), [], 0%nat.
    split; [|split; [simpl; lia|now left]].
    rewrite E; unfold around; simpl; now rewrite app_nil_r.
  - exists 0%nat, [sub (clipped min a (- step)) (Num a)], 0%nat.
    split; [exact E|]; split; [reflexivity|right; now left].
  - eexists _, _, _; split; [exact E|].
    split; [rewrite length_app; destruct (0 <? step); simpl; lia|].
    right; right; rewrite Nat2Z.id.
    split; [lia|]; split; [reflexivity|].
    destruct (0 <? step); simpl; lia.
  - exists (List.length pre),
      [if 0 <? step then sub (clipped min a (- step)) (Num a)
       else Num (- step)], 0%nat.
    split; [rewrite E; unfold around; now rewrite app_nil_r|].
    split; [rewrite length_app; simpl; lia|].
    right; right; rewrite Nat2Z.id.
    split; [lia|]; split; [reflexivity|simpl; lia].
Qed.

Lemma determine_returns (widths : list Z) (index step min : Z) :
  exists deltas,
    determine widths index step min = Some deltas
    /\ length deltas = length widths.
Proof.
  destruct (determine_shape widths index step min)
    as (n & mid & m & E & Hlen & _).
  eexists; split; [exact E|].
  unfold length; rewrite length_around; lia.
Qed.

(** ** Adding offsets to widths *)

Lemma resized_app (ws vs ds es : list Z) :
  List.length ws = List.length ds ->
  resized (ws ++ vs) (ds ++ es) = resized ws ds ++ resized vs es.
Proof.
  revert ds; unfold resized.
  induction ws as [|w ws IH]; intros [|d ds] Hlen; try discriminate.
  - reflexivity.
  - simpl; f_equal; apply IH.
    now injection Hlen.
Qed.

Lemma resized_zero (ws : list Z) :
  resized ws (repeat 0 (List.length ws)) = ws.
Proof.
  unfold resized; induction ws as [|w ws IH]; simpl; [reflexivity|].
  rewrite IH; f_equal; lia.
Qed.

Lemma resized_pair (pre post : list Z) (a b da db : Z) :
  resized (pre ++ a :: b :: post)
          (around 0 (List.length pre) [da; db] (List.length post))
  = pre ++ (a + da) :: (b + db) :: post.
Proof.
  unfold around.
  rewrite resized_app by now rewrite repeat_length.
  rewrite resized_zero; f_equal.
  change (a :: b :: post) with ([a; b] ++ post).
  rewrite resized_app by reflexivity.
  now rewrite resized_zero.
Qed.

Lemma resized_last (pre : list Z) (a da : Z) :
  resized (pre ++ [a]) (repeat 0 (List.length pre) ++ [da])
  = pre ++ [a + da].
Proof.
  rewrite resized_app by now rewrite repeat_length.
  now rewrite resized_zero.
Qed.

(** ** The results within the exact range

    When the touched widths, the step and the minimum are at most [2^52]
    in magnitude, every sum and difference of the handlers is at most
    [2^53] in magnitude and the code computes the integer results. *)

Section Exact.

Variables (min w step : Z).
Hypothesis w_safe : Z.abs w <= safe.
Hypothesis step_safe : Z.abs step <= safe.
Hypothesis min_safe : Z.abs min <= safe.

Lemma toward_exact :
  sub (clipped min w step) (Num w) = Num (Z.max min (w + step) - w).
Proof.
  rewrite clipped_exact by (unfold limit, safe in *; lia).
  apply sub_exact; unfold limit, safe in *; lia.
Qed.


End Exact.

Lemma get_around_here {A : Type} (z a : A) (n m : nat) (rest : list A) :
  get (around z n (a :: rest) m) (Z.of_nat n) = Some a.
Proof.
  pose proof (get_around_first z (Z.of_nat n) m (Nat2Z.is_nonneg n) a rest)
    as H.
  now rewrite Nat2Z.id in H.
Qed.

Lemma get_around_next {A : Type} (z a b : A) (n m : nat) (rest : list A) :
  get (around z n (a :: b :: rest) m) (Z.of_nat n + 1) = Some b.
Proof.
  pose proof (get_around_second z (Z.of_nat n) m (Nat2Z.is_nonneg n)
                a b rest) as H.
  now rewrite Nat2Z.id in H.
Qed.

Lemma get_repeat_app_last {A : Type} (z a : A) (n : nat) :
  get (repeat z n ++ [a]) (Z.of_nat n) = Some a.
Proof.
  pose proof (get_app_here (repeat z n) [] a) as H.
  now rewrite repeat_length in H.
Qed.

(** ** Properties of [determine] and [neighbours] *)

(** C1, as the code has it: for all integers [w], [step] and [min] of
    magnitude at most [2^52], [determine] applied to the single-column
    sequence [[w]] with column index 0 returns the one-element sequence
    [[max(min, w - step) - w]], where [step] is the public argument: the
    function negates it before adding it to the width.  The bound is
    needed: JavaScript numbers round beyond [2^53], and
    [determine([2^53], 0, -1, 0)] is [[0]], not [[1]]. *)
Theorem determine_only_negated_step :
  (forall w step min : Z,
      Z.abs w <= safe -> Z.abs step <= safe -> Z.abs min <= safe ->
      determine [w] 0 step min = Some [Num (Z.max min (w - step) - w)])
  /\ determine [9007199254740992] 0 (-1) 0 = Some [Num 0].
Proof.
  split; [|vm_compute; reflexivity].
  intros w step min Hw Hstep Hmin.
  rewrite determine_at_only, toward_exact by lia.
  now rewrite Z.add_opp_r.
Qed.

Lemma determine_only_negated_step_witness :
  Z.abs 100 <= safe /\ Z.abs 10 <= safe /\ Z.abs 10 <= safe
  /\ determine [100] 0 10 10 = Some [Num (Z.max 10 (100 - 10) - 100)].
Proof.
  repeat (split; [unfold safe; lia|]).
  apply (proj1 determine_only_negated_step 100 10 10); unfold safe; lia.
Defined.

(** C1, as stated with the public step added to the width, fails: for
    [w = 100], [step = 10] and [min = 10] the code returns [[-10]], while
    [max(min, w + step) - w] is [10]. *)
Lemma determine_only_public_step_fails :
  0 <= 10
  /\ determine [100] 0 10 10 = Some [Num (-10)]
  /\ determine [100] 0 10 10 <> Some [Num (Z.max 10 (100 + 10) - 100)].
Proof.
  split; [lia|]; split; [reflexivity|].
  intros H; vm_compute in H; discriminate H.
Qed.




(** C3, as the code has it: for every width sequence of length at least
    2, every column index classified Left or Middle
    ([0 <= index < length - 1]), every non-positive public step [s] and
    every non-negative [min], the offset of column [index] is exactly
    [-s], and when the width of column [index + 1], the step and [min] are
    at most [2^52] the offset of column [index + 1] is
    [max(min, widths[index+1] + s) - widths[index+1]].  The shortfall at
    the floor is not redistributed, so the offsets need not sum to 0:
    [determine([100,100], 0, -200, 50) = [200, -50]], of sum 150. *)
Theorem determine_grow_this_clips_next :
  (forall (widths : list Z) (index s min w : Z),
      2 <= length widths ->
      0 <= index < length widths - 1 ->
      s <= 0 ->
      0 <= min ->
      get widths (index + 1) = Some w ->
      exists deltas : list number,
        determine widths index s min = Some deltas
        /\ get deltas index = Some (Num (- s))
        /\ (Z.abs w <= safe -> - safe <= s -> min <= safe ->
            get deltas (index + 1) = Some (Num (Z.max min (w + s) - w))))
  /\ determine [100; 100] 0 (-200) 50 = Some [Num 200; Num (-50)]
  /\ sum [200; -50] <> 0.
Proof.
  split; [|split; [reflexivity|discriminate]].
  intros widths index s min w _ Hindex Hs Hmin Hw.
  destruct (split_at_pair widths index Hindex)
    as (pre & a & b & post & -> & ->).
  rewrite get_app_next in Hw; injection Hw as ->.
  rewrite determine_at_pair.
  destruct (Z.ltb_spec 0 s); [lia|].
  eexists; split; [reflexivity|].
  rewrite get_around_here, get_around_next.
  split; [reflexivity|].
  intros Hsafe Hs' Hm; now rewrite toward_exact by lia.
Qed.

Lemma determine_grow_this_clips_next_witness :
  2 <= length [80; 30; 120]
  /\ 0 <= 1 < length [80; 30; 120] - 1
  /\ -100 <= 0
  /\ 0 <= 40
  /\ get [80; 30; 120] (1 + 1) = Some 120
  /\ Z.abs 120 <= safe /\ - safe <= -100 /\ 40 <= safe
  /\ exists deltas : list number,
       determine [80; 30; 120] 1 (-100) 40 = Some deltas
       /\ get deltas 1 = Some (Num (- -100))
       /\ get deltas (1 + 1) = Some (Num (Z.max 40 (120 + -100) - 120)).
Proof.
  repeat (split; [(unfold length, safe; simpl; lia) || reflexivity|]).
  destruct (proj1 determine_grow_this_clips_next [80; 30; 120] 1 (-100) 40
              120) as (deltas & Hd & Hthis & Hnext);
    try ((unfold length; simpl; lia) || reflexivity).
  exists deltas; split; [exact Hd|]; split; [exact Hthis|].
  apply Hnext; unfold safe; lia.
Defined.

(** C3, as stated for every integer width, fails where JavaScript numbers
    round: for [widths = [0, 2^53+2]], index 0, step [-1] and [min = 0]
    the code returns [[1, -2]], while
    [max(min, widths[1] + s) - widths[1]] is [-1]. *)
Lemma determine_grow_this_rounds :
  2 <= length [0; 9007199254740994]
  /\ 0 <= 0 < length [0; 9007199254740994] - 1
  /\ -1 <= 0
  /\ 0 <= 0
  /\ determine [0; 9007199254740994] 0 (-1) 0 = Some [Num 1; Num (-2)]
  /\ get [Num 1; Num (-2)] (0 + 1)
     <> Some (Num (Z.max 0 (9007199254740994 + -1) - 9007199254740994)).
Proof.
  repeat (split; [(unfold length; simpl; lia) || (vm_compute; reflexivity)|]).
  vm_compute; discriminate.
Qed.

(** C4: [neighbours] implements the five-case contract: empty widths give
    None; exactly one element gives Only(0), whatever the index; index 0
    with length above 1 gives Left(0, 1); index [length - 1] with length
    above 1 gives Right(length - 2, length - 1); and
    [0 < index < length - 1] gives Middle(index - 1, index, index + 1). *)
Theorem neighbours_contract :
  (forall index : Z, neighbours [] index = ColumnContext.none)
  /\ (forall w index : Z, neighbours [w] index = ColumnContext.only 0)
  /\ (forall widths : list Z,
         1 < length widths ->
         neighbours widths 0 = ColumnContext.left 0 1)
  /\ (forall widths : list Z,
         1 < length widths ->
         neighbours widths (length widths - 1)
         = ColumnContext.right (length widths - 2) (length widths - 1))
  /\ (forall (widths : list Z) (index : Z),
         0 < index < length widths - 1 ->
         neighbours widths index
         = ColumnContext.middle (index - 1) index (index + 1)).
Proof.
  repeat split.
  - intros widths Hlen.
    destruct (neighbours_inner widths 0) as [E|E]; [lia|exact E|].
    unfold neighbours in E |- *.
    destruct (Z.eqb_spec (length widths) 0); [lia|].
    destruct (Z.eqb_spec (length widths) 1); [lia|reflexivity].
  - intros widths Hlen.
    rewrite neighbours_last by lia.
    f_equal; lia.
  - intros widths index Hindex.
    destruct (neighbours_inner widths index) as [E|E]; [lia| |exact E].
    unfold neighbours in E |- *.
    destruct (Z.eqb_spec (length widths) 0); [lia|].
    destruct (Z.eqb_spec (length widths) 1); [lia|].
    destruct (Z.eqb_spec index 0); [lia|].
    destruct (Z.eqb_spec index (length widths - 1)); [lia|].
    destruct (Z.ltb_spec 0 index); [|lia].
    destruct (Z.ltb_spec index (length widths - 1)); [|lia].
    reflexivity.
Qed.

Lemma neighbours_contract_witness :
  (1 < length [30; 40; 50]
   /\ neighbours [30; 40; 50] 0 = ColumnContext.left 0 1)
  /\ (1 < length [30; 40; 50]
      /\ neighbours [30; 40; 50] (length [30; 40; 50] - 1)
         = ColumnContext.right (length [30; 40; 50] - 2)
                               (length [30; 40; 50] - 1))
  /\ (0 < 2 < length [30; 40; 50; 60] - 1
      /\ neighbours [30; 40; 50; 60] 2 = ColumnContext.middle (2 - 1) 2 (2 + 1)).
Proof.
  destruct neighbours_contract as (_ & _ & Hleft & Hright & Hmiddle).
  split; [|split]; (split; [unfold length; simpl; lia|]).
  - apply Hleft; unfold length; simpl; lia.
  - apply Hright; unfold length; simpl; lia.
  - apply Hmiddle; unfold length; simpl; lia.
Defined.

(** C5, as the code has it: floor invariants of [determine], when the
    width of the narrowed column, the step and [min] are at most [2^52].
    On the Left/Middle branch where the next column is shrunk (public step
    at most 0), the next column's width plus its offset is at least [min];
    on the Left/Middle branch where column [index] is shrunk (public step
    above 0), and on the Right shrink branch, the width of column [index]
    plus its offset is at least [min]. *)
Theorem determine_floor_invariants :
  (forall (widths : list Z) (index step min w : Z),
      0 <= index < length widths - 1 ->
      step <= 0 ->
      get widths (index + 1) = Some w ->
      Z.abs w <= safe -> Z.abs step <= safe -> Z.abs min <= safe ->
      exists deltas d,
        determine widths index step min = Some deltas
        /\ get deltas (index + 1) = Some (Num d)
        /\ min <= w + d)
  /\ (forall (widths : list Z) (index step min w : Z),
         0 <= index < length widths - 1 ->
         0 < step ->
         get widths index = Some w ->
         Z.abs w <= safe -> Z.abs step <= safe -> Z.abs min <= safe ->
         exists deltas d,
           determine widths index step min = Some deltas
           /\ get deltas index = Some (Num d)
           /\ min <= w + d)
  /\ (forall (widths : list Z) (index step min w : Z),
         2 <= length widths ->
         index = length widths - 1 ->
         0 < step ->
         get widths index = Some w ->
         Z.abs w <= safe -> Z.abs step <= safe -> Z.abs min <= safe ->
         exists deltas d,
           determine widths index step min = Some deltas
           /\ get deltas index = Some (Num d)
           /\ min <= w + d).
Proof.
  split; [|split].
  - intros widths index step min w Hindex Hstep Hw Hsafe Hs Hm.
    destruct (split_at_pair widths index Hindex)
      as (pre & a & b & post & -> & ->).
    rewrite get_app_next in Hw; injection Hw as ->.
    rewrite determine_at_pair.
    destruct (Z.ltb_spec 0 step); [lia|].
    rewrite toward_exact by lia.
    do 2 eexists; split; [reflexivity|].
    split; [apply get_around_next|lia].
  - intros widths index step min w Hindex Hstep Hw Hsafe Hs Hm.
    destruct (split_at_pair widths index Hindex)
      as (pre & a & b & post & -> & ->).
    rewrite get_app_here in Hw; injection Hw as ->.
    rewrite determine_at_pair.
    destruct (Z.ltb_spec 0 step); [|lia].
    rewrite toward_exact by lia.
    do 2 eexists; split; [reflexivity|].
    split; [apply get_around_here|lia].
  - intros widths index step min w Hlen Hindex Hstep Hw Hsafe Hs Hm.
    destruct (split_at_last widths) as (pre & a & -> & Hpre); [lia|].
    assert (pre <> []) as Hne.
    { intros ->; unfold length in Hlen; simpl in Hlen; lia. }
    replace index with (Z.of_nat (List.length pre)) in * by lia.
    rewrite get_app_here in Hw; injection Hw as ->.
    rewrite determine_at_last by assumption.
    destruct (Z.ltb_spec 0 step); [|lia].
    rewrite toward_exact by lia.
    do 2 eexists; split; [reflexivity|].
    split; [apply get_repeat_app_last|lia].
Qed.

Lemma determine_floor_invariants_witness :
  (0 <= 0 < length [40; 25; 70] - 1
   /\ -30 <= 0
   /\ get [40; 25; 70] (0 + 1) = Some 25
   /\ Z.abs 25 <= safe /\ Z.abs (-30) <= safe /\ Z.abs 20 <= safe
   /\ exists deltas d,
        determine [40; 25; 70] 0 (-30) 20 = Some deltas
        /\ get deltas (0 + 1) = Some (Num d)
        /\ 20 <= 25 + d)
  /\ (0 <= 1 < length [40; 25; 70] - 1
      /\ 0 < 30
      /\ get [40; 25; 70] 1 = Some 25
      /\ Z.abs 25 <= safe /\ Z.abs 30 <= safe /\ Z.abs 20 <= safe
      /\ exists deltas d,
           determine [40; 25; 70] 1 30 20 = Some deltas
           /\ get deltas 1 = Some (Num d)
           /\ 20 <= 25 + d)
  /\ (2 <= length [40; 25; 70]
      /\ 2 = length [40; 25; 70] - 1
      /\ 0 < 60
      /\ get [40; 25; 70] 2 = Some 70
      /\ Z.abs 70 <= safe /\ Z.abs 60 <= safe /\ Z.abs 20 <= safe
      /\ exists deltas d,
           determine [40; 25; 70] 2 60 20 = Some deltas
           /\ get deltas 2 = Some (Num d)
           /\ 20 <= 70 + d).
Proof.
  destruct determine_floor_invariants as (Hnext & Hthis & Hright).
  split; [|split];
    repeat (split; [(unfold length, safe; simpl; lia) || reflexivity|]).
  - apply Hnext; (unfold length, safe; simpl; lia) || reflexivity.
  - apply Hthis; (unfold length, safe; simpl; lia) || reflexivity.
  - apply Hright; (unfold length, safe; simpl; lia) || reflexivity.
Defined.

(** C5, as stated for every integer width and [min], fails where
    JavaScript numbers round: for [widths = [1, 1]], index 0, step 0 and
    [min = 2^53+2] the offset of the next column is [2^53], and
    [1 + 2^53] is below [min]. *)
Lemma determine_floor_rounds :
  0 <= 0 < length [1; 1] - 1
  /\ 0 <= 0
  /\ get [1; 1] (0 + 1) = Some 1
  /\ determine [1; 1] 0 0 9007199254740994
     = Some [Num 0; Num 9007199254740992]
  /\ get [Num 0; Num 9007199254740992] (0 + 1) = Some (Num 9007199254740992)
  /\ ~ 9007199254740994 <= 1 + 9007199254740992.
Proof.
  repeat (split; [(unfold length; simpl; lia) || (vm_compute; reflexivity)|]).
  lia.
Qed.

(** C6: frame property.  For every width sequence and every column index
    inside it, so in particular for every index strictly between 0 and
    [length - 1], [determine] returns a sequence of the input length in
    which every position other than [index] and [index + 1] holds exactly
    0: only the adjacent pair at the column (or the single column, at the
    right edge and for a one-column table) can receive a non-zero
    offset. *)
Theorem determine_frame (widths : list Z) (index step min : Z) :
  0 <= index <= length widths - 1 ->
  exists deltas,
    determine widths index step min = Some deltas
    /\ length deltas = length widths
    /\ forall j : Z,
         0 <= j < length widths ->
         j <> index -> j <> index + 1 ->
         get deltas j = Some (Num 0).
Proof.
  intros Hindex.
  destruct (determine_shape widths index step min)
    as (n & mid & m & -> & Hfit & Hmid).
  eexists; split; [reflexivity|].
  assert (length (around (Num 0) n mid m) = length widths) as Hlen
    by (unfold length; rewrite length_around; lia).
  split; [exact Hlen|].
  intros j Hj Hi Hn.
  apply get_around_outside; [rewrite Hlen; exact Hj|].
  unfold length in *.
  destruct Hmid as [->|[Hone|(Hpos & -> & Htwo)]]; simpl; lia.
Qed.

Lemma determine_frame_witness :
  0 <= 2 <= length [10; 20; 30; 40; 50] - 1
  /\ exists deltas,
       determine [10; 20; 30; 40; 50] 2 7 5 = Some deltas
       /\ length deltas = length [10; 20; 30; 40; 50]
       /\ forall j : Z,
            0 <= j < length [10; 20; 30; 40; 50] ->
            j <> 2 -> j <> 2 + 1 ->
            get deltas j = Some (Num 0).
Proof.
  split; [unfold length; simpl; lia|].
  apply (determine_frame [10; 20; 30; 40; 50] 2 7 5).
  unfold length; simpl; lia.
Defined.

(** C7: for every width sequence, column index, step and [min],
    [determine] returns a sequence of the same length as the width
    sequence; in particular it returns the empty sequence for the empty
    width sequence, whatever the index, step and [min]. *)
Theorem determine_preserves_length :
  (forall (widths : list Z) (index step min : Z),
      exists deltas,
        determine widths index step min = Some deltas
        /\ List.length deltas = List.length widths)
  /\ (forall index step min : Z, determine [] index step min = Some []).
Proof.
  split.
  - intros widths index step min.
    destruct (determine_returns widths index step min) as (deltas & E & Hlen).
    exists deltas; split; [exact E|unfold length in Hlen; lia].
  - intros index step min; reflexivity.
Qed.

(** C8: right-edge asymmetry.  For every width sequence of length at least
    2, the index [length - 1], every non-positive public step [s] and any
    [min], the last column's offset is exactly [-s], with no clipping at
    the floor, and every other offset is 0.  In particular
    [determine([50,50,50], 2, -20, 10) = [0,0,20]]; and the resulting last
    width can stay below [min], as for [determine([50,5], 1, 0, 10)]. *)
Theorem determine_right_edge_unclipped :
  (forall (widths : list Z) (s min : Z),
      2 <= length widths ->
      s <= 0 ->
      determine widths (length widths - 1) s min
      = Some (repeat (Num 0) (Z.to_nat (length widths - 1)) ++ [Num (- s)]))
  /\ determine [50; 50; 50] 2 (-20) 10 = Some [Num 0; Num 0; Num 20]
  /\ (determine [50; 5] 1 0 10 = Some [Num 0; Num 0] /\ 5 + 0 < 10).
Proof.
  split; [|split; [reflexivity|split; [reflexivity|lia]]].
  intros widths s min Hlen Hs.
  rewrite determine_last by (assumption || reflexivity).
  rewrite onRight_grow by lia.
  reflexivity.
Qed.

Lemma determine_right_edge_unclipped_witness :
  2 <= length [50; 50; 50]
  /\ -20 <= 0
  /\ determine [50; 50; 50] (length [50; 50; 50] - 1) (-20) 10
     = Some (repeat (Num 0) (Z.to_nat (length [50; 50; 50] - 1))
             ++ [Num (- -20)]).
Proof.
  repeat (split; [unfold length; simpl; lia|]).
  apply (proj1 determine_right_edge_unclipped [50; 50; 50] (-20) 10);
    unfold length; simpl; lia.
Defined.

(** C9: totality at the public interface.  [determine] returns a result
    for every integer column index, in or out of range, without reading a
    width outside the sequence (such a read would make it fail); for a
    sequence of length at least 2 and an index outside [0, length - 1] the
    classification is None and the result is the all-zero sequence of the
    input length; for a one-element sequence the index is ignored: the
    classification is Only(0) and the result is the one for index 0. *)
Theorem determine_total :
  (forall (widths : list Z) (index step min : Z),
      exists deltas, determine widths index step min = Some deltas)
  /\ (forall (widths : list Z) (index step min : Z),
         2 <= length widths ->
         index < 0 \/ length widths - 1 < index ->
         neighbours widths index = ColumnContext.none
         /\ determine widths index step min
            = Some (repeat (Num 0) (List.length widths)))
  /\ (forall w index step min : Z,
         neighbours [w] index = ColumnContext.only 0
         /\ determine [w] index step min = determine [w] 0 step min).
Proof.
  split; [|split].
  - intros widths index step min.
    destruct (determine_returns widths index step min) as (deltas & E & _).
    now exists deltas.
  - intros widths index step min Hlen Hout.
    split; [now apply neighbours_outside|].
    rewrite determine_outside by assumption.
    now rewrite zero_repeat.
  - intros w index step min.
    split; [reflexivity|].
    now rewrite !determine_single by reflexivity.
Qed.

Lemma determine_total_witness :
  (2 <= length [30; 40; 50]
   /\ (-1 < 0 \/ length [30; 40; 50] - 1 < -1)
   /\ neighbours [30; 40; 50] (-1) = ColumnContext.none
   /\ determine [30; 40; 50] (-1) 15 10
      = Some (repeat (Num 0) (List.length [30; 40; 50])))
  /\ (2 <= length [30; 40; 50]
      /\ (3 < 0 \/ length [30; 40; 50] - 1 < 3)
      /\ neighbours [30; 40; 50] 3 = ColumnContext.none
      /\ determine [30; 40; 50] 3 15 10
         = Some (repeat (Num 0) (List.length [30; 40; 50]))).
Proof.
  destruct determine_total as (_ & Hout & _).
  split; (split; [unfold length; simpl; lia|]).
  - split; [left; lia|].
    apply Hout; [unfold length; simpl; lia|left; lia].
  - split; [right; unfold length; simpl; lia|].
    apply Hout; [unfold length; simpl; lia|right; unfold length; simpl; lia].
Defined.

(** C10: zero step is an identity only above the floor.  For every
    sequence of widths (JavaScript numbers: integers that binary64 holds)
    whose entries are all at least [min] and every column index inside it,
    [determine(widths, index, 0, min)] is the all-zero sequence.  The
    hypothesis on the floor is needed: with step 0 the clipped branches
    still bump a column narrower than [min] up to [min], as in
    [determine([5], 0, 0, 10) = [5]] and
    [determine([50,5], 0, 0, 10) = [0,5]]. *)
Theorem determine_zero_step_above_floor :
  (forall (widths : list Z) (index min : Z),
      Forall double widths ->
      Forall (fun w => min <= w) widths ->
      0 <= index <= length widths - 1 ->
      determine widths index 0 min
      = Some (repeat (Num 0) (List.length widths)))
  /\ determine [5] 0 0 10 = Some [Num 5]
  /\ determine [50; 5] 0 0 10 = Some [Num 0; Num 5].
Proof.
  split; [|split; reflexivity].
  intros widths index min Hdouble Hfloor Hindex.
  assert (forall w, double w -> min <= w ->
                    sub (clipped min w 0) (Num w) = Num 0) as Hkeep.
  { intros w Hw Hmin; unfold clipped.
    rewrite add_zero_double by assumption.
    simpl Math.max; rewrite Z.max_r by assumption.
    apply sub_self. }
  destruct (determine_cases widths index 0 min)
    as [E|[(a & -> & E)|[(pre & a & b & post & -> & -> & E)
                        |(pre & a & -> & Hne & -> & E)]]];
    rewrite E; clear E.
  - reflexivity.
  - inversion Hdouble; inversion Hfloor; subst.
    simpl; now rewrite Hkeep.
  - apply Forall_app in Hdouble as [_ Hd], Hfloor as [_ Hf].
    inversion Hd as [|? ? _ Hd']; inversion Hf as [|? ? _ Hf']; subst.
    inversion Hd'; inversion Hf'; subst.
    change (0 <? 0) with false; cbv iota.
    rewrite Hkeep by assumption.
    change (Some (around (Num 0) (List.length pre) (repeat (Num 0) 2)
                         (List.length post))
            = Some (repeat (Num 0) (List.length (pre ++ a :: b :: post)))).
    rewrite around_repeat, length_app; simpl List.length.
    do 2 f_equal; lia.
  - change (Some (repeat (Num 0) (List.length pre) ++ repeat (Num 0) 1)
            = Some (repeat (Num 0) (List.length (pre ++ [a])))).
    now rewrite <- repeat_app, length_app.
Qed.

Lemma determine_zero_step_above_floor_witness :
  Forall double [40; 20; 70]
  /\ Forall (fun w => 20 <= w) [40; 20; 70]
  /\ 0 <= 1 <= length [40; 20; 70] - 1
  /\ determine [40; 20; 70] 1 0 20
     = Some (repeat (Num 0) (List.length [40; 20; 70])).
Proof.
  split; [repeat constructor|].
  split; [repeat constructor; lia|].
  split; [unfold length; simpl; lia|].
  apply (proj1 determine_zero_step_above_floor [40; 20; 70] 1 20).
  - repeat constructor.
  - repeat constructor; lia.
  - unfold length; simpl; lia.
Defined.

(** ** The scenarios of the specification, evaluated *)

Example scenario_left_shrink :
  neighbours [100; 100] 0 = ColumnContext.left 0 1
  /\ determine [100; 100] 0 10 10 = Some [Num (-10); Num 10].
Proof. split; reflexivity. Qed.

Example scenario_left_grow_clipped :
  determine [100; 100] 0 (-200) 50 = Some [Num 200; Num (-50)].
Proof. reflexivity. Qed.

Example scenario_right_grow :
  neighbours [50; 50; 50] 2 = ColumnContext.right 1 2
  /\ determine [50; 50; 50] 2 (-20) 10 = Some [Num 0; Num 0; Num 20].
Proof. split; reflexivity. Qed.

Example scenario_empty : determine [] 4 (-3) 10 = Some [].
Proof. reflexivity. Qed.

(** ** Further properties of [neighbours] and [determine] *)

(** X1: every column index that [neighbours] puts in a context lies inside
    the sequence, the context's own index is the requested one (0 for a
    one-column sequence), and its neighbours are the adjacent columns. *)
Theorem neighbours_indices_inside (input : list Z) (index : Z) :
  match neighbours input index with
  | ColumnContext.none => True
  | ColumnContext.only i => i = 0 /\ length input = 1
  | ColumnContext.left i next =>
      i = index /\ next = index + 1 /\ 0 <= i /\ next < length input
  | ColumnContext.middle prev i next =>
      prev = index - 1 /\ i = index /\ next = index + 1
      /\ 0 <= prev /\ next < length input
  | ColumnContext.right prev i =>
      prev = index - 1 /\ i = index /\ 0 <= prev /\ i < length input
  end.
Proof.
  unfold neighbours.
  destruct (Z.eqb_spec (length input) 0); [exact I|].
  destruct (Z.eqb_spec (length input) 1); [now split|].
  pose proof (length_nonneg input).
  destruct (Z.eqb_spec index 0); [lia|].
  destruct (Z.eqb_spec index (length input - 1)); [lia|].
  destruct (Z.ltb_spec 0 index); [|exact I].
  destruct (Z.ltb_spec index (length input - 1)); [|exact I].
  simpl; lia.
Qed.

(** X2: [neighbours] answers None exactly when the sequence is empty, or
    has at least two columns and the index lies outside it; an index inside
    a non-empty sequence always gets a context. *)
Theorem neighbours_none_iff (input : list Z) (index : Z) :
  neighbours input index = ColumnContext.none
  <-> length input = 0
      \/ (2 <= length input /\ (index < 0 \/ length input - 1 < index)).
Proof.
  pose proof (length_nonneg input).
  unfold neighbours.
  destruct (Z.eqb_spec (length input) 0); [tauto|].
  destruct (Z.eqb_spec (length input) 1);
    [split; [discriminate|lia]|].
  destruct (Z.eqb_spec index 0); [split; [discriminate|lia]|].
  destruct (Z.eqb_spec index (length input - 1));
    [split; [discriminate|lia]|].
  destruct (Z.ltb_spec 0 index); [|simpl; split; [lia|reflexivity]].
  destruct (Z.ltb_spec index (length input - 1)); simpl;
    split; (discriminate || lia || reflexivity).
Qed.

Lemma map_Num_repeat (n : nat) :
  List.map Num (repeat 0 n) = repeat (Num 0) n.
Proof. apply map_repeat. Qed.

Lemma map_Num_last (n : nat) (d : Z) :
  List.map Num (repeat 0 n ++ [d]) = repeat (Num 0) n ++ [Num d].
Proof. now rewrite map_app, map_repeat. Qed.

(** Names the integer offsets of a result whose entries are all [Num]. *)
Ltac integer_offsets :=
  match goal with
  | |- exists deltas : list Z,
         Some (around (Num 0) ?n [Num ?x; Num ?y] ?m)
         = Some (List.map Num deltas) /\ _ =>
      exists (around 0 n [x; y] m);
      split; [now rewrite map_Num_around|]
  | |- exists deltas : list Z,
         Some (repeat (Num 0) ?n ++ [Num ?x])
         = Some (List.map Num deltas) /\ _ =>
      exists (repeat 0 n ++ [x]);
      split; [now rewrite map_Num_last|]
  | |- exists deltas : list Z,
         Some [Num ?x] = Some (List.map Num deltas) /\ _ =>
      exists [x]; split; [reflexivity|]
  | |- exists deltas : list Z,
         Some (repeat (Num 0) ?n) = Some (List.map Num deltas) /\ _ =>
      exists (repeat 0 n); split; [now rewrite map_Num_repeat|]
  end.

(** X3: within the exact range a resize never pushes a column below the
    floor.  If every width is at least [min] and at most [2^52] in
    magnitude, and the step is at most [2^52] in magnitude, then for every
    column index the offsets are integers, and adding them to the widths
    gives widths that are all at least [min] again, one per column. *)
Theorem determine_keeps_floor (widths : list Z) (index step min : Z) :
  Forall (fun w => min <= w) widths ->
  Forall (fun w => Z.abs w <= safe) widths ->
  Z.abs step <= safe ->
  exists deltas : list Z,
    determine widths index step min = Some (List.map Num deltas)
    /\ List.length (resized widths deltas) = List.length widths
    /\ Forall (fun w => min <= w) (resized widths deltas).
Proof.
  intros Hfloor Hsafe Hstep.
  destruct (determine_cases widths index step min)
    as [E|[(a & -> & E)|[(pre & a & b & post & -> & _ & E)
                        |(pre & a & -> & _ & _ & E)]]];
    rewrite E; clear E.
  - integer_offsets; now rewrite resized_zero.
  - inversion Hfloor; inversion Hsafe; subst.
    unfold clipped; exact_arith; integer_offsets.
    split; [reflexivity|].
    repeat constructor; simpl; lia.
  - apply Forall_app in Hfloor as [Hpre Hrest], Hsafe as [_ Hsafe].
    inversion Hrest as [|? ? Ha Hrest']; subst.
    inversion Hrest' as [|? ? Hb Hpost]; subst.
    inversion Hsafe as [|? ? Ha' Hsafe']; subst.
    inversion Hsafe' as [|? ? Hb' _]; subst.
    destruct (Z.ltb_spec 0 step); unfold clipped; exact_arith;
      integer_offsets; rewrite resized_pair;
      (split; [now rewrite !length_app|]);
      (apply Forall_app; split; [assumption|]);
      repeat (constructor; [lia|]); assumption.
  - apply Forall_app in Hfloor as [Hpre Hrest], Hsafe as [_ Hsafe].
    inversion Hrest as [|? ? Ha _]; subst.
    inversion Hsafe as [|? ? Ha' _]; subst.
    destruct (Z.ltb_spec 0 step); unfold clipped; exact_arith;
      integer_offsets; rewrite resized_last;
      (split; [now rewrite !length_app|]);
      (apply Forall_app; split; [assumption|]);
      repeat constructor; lia.
Qed.

Lemma determine_keeps_floor_witness :
  Forall (fun w => 20 <= w) [40; 25; 70]
  /\ Forall (fun w => Z.abs w <= safe) [40; 25; 70]
  /\ Z.abs 30 <= safe
  /\ exists deltas : list Z,
       determine [40; 25; 70] 1 30 20 = Some (List.map Num deltas)
       /\ List.length (resized [40; 25; 70] deltas)
          = List.length [40; 25; 70]
       /\ Forall (fun w => 20 <= w) (resized [40; 25; 70] deltas).
Proof.
  split; [repeat constructor; lia|].
  split; [repeat constructor; unfold safe; lia|].
  split; [unfold safe; lia|].
  apply (determine_keeps_floor [40; 25; 70] 1 30 20);
    repeat constructor; unfold safe; lia.
Defined.

(** X4: within the exact range no column moves by more than the drag.  If
    every width is at least [min] and at most [2^52] in magnitude, and the
    step is at most [2^52] in magnitude, then for every column index the
    offsets are integers of absolute value at most [|step|]. *)
Theorem determine_offsets_bounded (widths : list Z) (index step min : Z) :
  Forall (fun w => min <= w) widths ->
  Forall (fun w => Z.abs w <= safe) widths ->
  Z.abs step <= safe ->
  exists deltas : list Z,
    determine widths index step min = Some (List.map Num deltas)
    /\ Forall (fun d => Z.abs d <= Z.abs step) deltas.
Proof.
  intros Hfloor Hsafe Hstep.
  assert (forall n, Forall (fun d => Z.abs d <= Z.abs step) (repeat 0 n))
    as Hzeros.
  { intros n; apply Forall_forall; intros d Hd.
    apply repeat_spec in Hd; subst; lia. }
  destruct (determine_cases widths index step min)
    as [E|[(a & -> & E)|[(pre & a & b & post & -> & _ & E)
                        |(pre & a & -> & _ & _ & E)]]];
    rewrite E; clear E.
  - integer_offsets; apply Hzeros.
  - inversion Hfloor; inversion Hsafe; subst.
    unfold clipped; exact_arith; integer_offsets.
    repeat constructor; lia.
  - apply Forall_app in Hfloor as [_ Hrest], Hsafe as [_ Hsafe].
    inversion Hrest as [|? ? Ha Hrest']; subst.
    inversion Hrest' as [|? ? Hb _]; subst.
    inversion Hsafe as [|? ? Ha' Hsafe']; subst.
    inversion Hsafe' as [|? ? Hb' _]; subst.
    destruct (Z.ltb_spec 0 step); unfold clipped; exact_arith;
      integer_offsets; unfold around;
      (apply Forall_app; split; [apply Hzeros|]);
      (apply Forall_app; split; [|apply Hzeros]);
      repeat constructor; lia.
  - apply Forall_app in Hfloor as [_ Hrest], Hsafe as [_ Hsafe].
    inversion Hrest as [|? ? Ha _]; subst.
    inversion Hsafe as [|? ? Ha' _]; subst.
    destruct (Z.ltb_spec 0 step); unfold clipped; exact_arith;
      integer_offsets;
      (apply Forall_app; split; [apply Hzeros|]);
      repeat constructor; lia.
Qed.

Lemma determine_offsets_bounded_witness :
  Forall (fun w => 20 <= w) [40; 25; 70]
  /\ Forall (fun w => Z.abs w <= safe) [40; 25; 70]
  /\ Z.abs (-60) <= safe
  /\ exists deltas : list Z,
       determine [40; 25; 70] 0 (-60) 20 = Some (List.map Num deltas)
       /\ Forall (fun d => Z.abs d <= Z.abs (-60)) deltas.
Proof.
  split; [repeat constructor; lia|].
  split; [repeat constructor; unfold safe; lia|].
  split; [unfold safe; lia|].
  apply (determine_offsets_bounded [40; 25; 70] 0 (-60) 20);
    repeat constructor; unfold safe; lia.
Defined.

(** X5: within the exact range a drag inside the table never narrows the
    table.  For every column index that has a right neighbour, when the
    widths of the column and of its neighbour, the step and [min] are at
    most [2^52] in magnitude, the offsets are integers that sum to at
    least 0, and they sum to exactly 0, so the table keeps its total
    width, precisely when the step is positive or the right neighbour can
    give up [-step] pixels without going below [min]. *)
Theorem determine_inner_total
    (widths : list Z) (index step min w v : Z) :
  0 <= index < length widths - 1 ->
  get widths index = Some w ->
  get widths (index + 1) = Some v ->
  Z.abs w <= safe -> Z.abs v <= safe ->
  Z.abs step <= safe -> Z.abs min <= safe ->
  exists deltas : list Z,
    determine widths index step min = Some (List.map Num deltas)
    /\ 0 <= sum deltas
    /\ (sum deltas = 0 <-> 0 < step \/ min <= v + step).
Proof.
  intros Hindex Hw Hv Hws Hvs Hstep Hmin.
  destruct (split_at_pair widths index Hindex)
    as (pre & a & b & post & -> & ->).
  rewrite get_app_here in Hw; injection Hw as ->.
  rewrite get_app_next in Hv; injection Hv as ->.
  rewrite determine_at_pair.
  destruct (Z.ltb_spec 0 step); unfold clipped; exact_arith;
    integer_offsets; rewrite sum_around; simpl; lia.
Qed.

Lemma determine_inner_total_witness :
  0 <= 1 < length [40; 25; 70] - 1
  /\ get [40; 25; 70] 1 = Some 25
  /\ get [40; 25; 70] (1 + 1) = Some 70
  /\ Z.abs 25 <= safe /\ Z.abs 70 <= safe
  /\ Z.abs (-60) <= safe /\ Z.abs 20 <= safe
  /\ exists deltas : list Z,
       determine [40; 25; 70] 1 (-60) 20 = Some (List.map Num deltas)
       /\ 0 <= sum deltas
       /\ (sum deltas = 0 <-> 0 < -60 \/ 20 <= 70 + -60).
Proof.
  repeat (split; [(unfold length, safe; simpl; lia) || reflexivity|]).
  apply (determine_inner_total [40; 25; 70] 1 (-60) 20 25 70);
    (unfold length, safe; simpl; lia) || reflexivity.
Defined.

(** X6: a resize inside the table is the two-column resize of the columns
    at the dragged boundary, surrounded by zeros: the offsets do not depend
    on any other width.  (Left and Middle contexts run the same rule.) *)
Theorem determine_inner_is_local (pre post : list Z) (a b step min : Z) :
  exists pair,
    determine [a; b] 0 step min = Some pair
    /\ determine (pre ++ a :: b :: post) (Z.of_nat (List.length pre))
                 step min
       = Some (repeat (Num 0) (List.length pre) ++ pair
               ++ repeat (Num 0) (List.length post)).
Proof.
  pose proof (determine_at_pair [] [] a b step min) as Hpair.
  unfold around in Hpair; simpl in Hpair; rewrite app_nil_r in Hpair.
  eexists; split; [exact Hpair|].
  apply determine_at_pair.
Qed.

(** X7: the right edge against the single column, within the exact range.
    When the last width, the step and [min] are at most [2^52] in
    magnitude, dragging the last of several columns gives that column the
    offset a one-column table would get, after zeros for the columns
    before it, exactly when the step is positive or the column stays at or
    above [min] once widened by [-step]; otherwise the single column is
    lifted to [min] and the right edge is not. *)
Theorem determine_right_edge_vs_only (pre : list Z) (a step min : Z) :
  pre <> [] ->
  Z.abs a <= safe -> Z.abs step <= safe -> Z.abs min <= safe ->
  exists single,
    determine [a] 0 step min = Some single
    /\ (determine (pre ++ [a]) (Z.of_nat (List.length pre)) step min
        = Some (repeat (Num 0) (List.length pre) ++ single)
        <-> 0 < step \/ min <= a - step).
Proof.
  intros Hpre Ha Hstep Hmin.
  rewrite determine_at_only, determine_at_last by assumption.
  eexists; split; [reflexivity|].
  destruct (Z.ltb_spec 0 step) as [Hs|Hs].
  - split; [intros _; now left|reflexivity].
  - rewrite toward_exact by lia.
    split.
    + intros E; injection E as E.
      apply app_inv_head in E; injection E as E; lia.
    + intros [Hpos|Hroom]; [lia|].
      do 4 f_equal; lia.
Qed.

Lemma determine_right_edge_vs_only_witness :
  [40; 25] <> []
  /\ Z.abs 5 <= safe /\ Z.abs (-3) <= safe /\ Z.abs 20 <= safe
  /\ exists single,
       determine [5] 0 (-3) 20 = Some single
       /\ (determine ([40; 25] ++ [5]) (Z.of_nat (List.length [40; 25]))
                     (-3) 20
           = Some (repeat (Num 0) (List.length [40; 25]) ++ single)
           <-> 0 < -3 \/ 20 <= 5 - -3).
Proof.
  split; [discriminate|].
  repeat (split; [unfold safe; lia|]).
  apply (determine_right_edge_vs_only [40; 25] 5 (-3) 20);
    (unfold safe; lia) || discriminate.
Defined.

(** X8: within the exact range and away from the floor a drag moves
    exactly [step] pixels across the boundary.  If the two widths at the
    boundary and the step are at most [2^52] in magnitude, the column
    stays at or above [min] after losing [step] and its right neighbour
    after gaining it, then the offsets are [-step] for the column, [step]
    for the neighbour and 0 elsewhere. *)
Theorem determine_unclipped_transfer
    (pre post : list Z) (a b step min : Z) :
  Z.abs a <= safe -> Z.abs b <= safe -> Z.abs step <= safe ->
  min <= a - step ->
  min <= b + step ->
  determine (pre ++ a :: b :: post) (Z.of_nat (List.length pre)) step min
  = Some (repeat (Num 0) (List.length pre) ++ [Num (- step); Num step]
          ++ repeat (Num 0) (List.length post)).
Proof.
  intros Has Hbs Hstep Ha Hb; rewrite determine_at_pair.
  destruct (Z.ltb_spec 0 step); unfold clipped, around; exact_arith.
  - replace (Z.max min (a + - step) - a) with (- step) by lia.
    replace (a - Z.max min (a + - step)) with step by lia.
    reflexivity.
  - replace (Z.max min (b + step) - b) with step by lia.
    reflexivity.
Qed.

Lemma determine_unclipped_transfer_witness :
  Z.abs 40 <= safe /\ Z.abs 25 <= safe /\ Z.abs 15 <= safe
  /\ 20 <= 40 - 15
  /\ 20 <= 25 + 15
  /\ determine ([60] ++ 40 :: 25 :: [70]) (Z.of_nat (List.length [60])) 15 20
     = Some (repeat (Num 0) (List.length [60]) ++ [Num (- 15); Num 15]
             ++ repeat (Num 0) (List.length [70])).
Proof.
  repeat (split; [unfold safe; lia|]).
  apply (determine_unclipped_transfer [60] [70] 40 25 15 20);
    unfold safe; lia.
Defined.

(** X9: within the exact range, dragging a boundary and dragging it back
    restores the widths.  If the two widths at the boundary and the step
    are at most [2^52] in magnitude and the two columns are at or above
    [min] before the drag and after it, then resizing by [step], adding the
    integer offsets, resizing the result by [-step] at the same column and
    adding those offsets gives the original widths. *)
Theorem determine_drag_and_back (pre post : list Z) (a b step min : Z) :
  Z.abs a <= safe -> Z.abs b <= safe -> Z.abs step <= safe ->
  min <= a -> min <= b ->
  min <= a - step -> min <= b + step ->
  exists there back : list Z,
    determine (pre ++ a :: b :: post) (Z.of_nat (List.length pre)) step min
    = Some (List.map Num there)
    /\ determine (resized (pre ++ a :: b :: post) there)
                 (Z.of_nat (List.length pre)) (- step) min
       = Some (List.map Num back)
    /\ resized (resized (pre ++ a :: b :: post) there) back
       = pre ++ a :: b :: post.
Proof.
  intros Has Hbs Hstep Ha Hb Ha' Hb'.
  exists (around 0 (List.length pre) [- step; step] (List.length post)).
  exists (around 0 (List.length pre) [step; - step] (List.length post)).
  rewrite !resized_pair, !map_Num_around, !determine_at_pair.
  split; [|split].
  - destruct (Z.ltb_spec 0 step); unfold clipped; exact_arith;
      simpl List.map; repeat (f_equal; try lia).
  - destruct (Z.ltb_spec 0 (- step)); unfold clipped; exact_arith;
      simpl List.map; repeat (f_equal; try lia).
  - repeat (f_equal; try lia).
Qed.

Lemma determine_drag_and_back_witness :
  Z.abs 40 <= safe /\ Z.abs 25 <= safe /\ Z.abs (-5) <= safe
  /\ 20 <= 40 /\ 20 <= 25 /\ 20 <= 40 - -5 /\ 20 <= 25 + -5
  /\ exists there back : list Z,
       determine ([60] ++ 40 :: 25 :: [70]) (Z.of_nat (List.length [60]))
                 (-5) 20
       = Some (List.map Num there)
       /\ determine (resized ([60] ++ 40 :: 25 :: [70]) there)
                    (Z.of_nat (List.length [60])) (- -5) 20
          = Some (List.map Num back)
       /\ resized (resized ([60] ++ 40 :: 25 :: [70]) there) back
          = [60] ++ 40 :: 25 :: [70].
Proof.
  repeat (split; [unfold safe; lia|]).
  apply (determine_drag_and_back [60] [70] 40 25 (-5) 20); unfold safe; lia.
Defined.

(** ** Properties of the menu helpers of the table plugin *)

Module TableUiFacts.

Import String TableUi.

(** X11: [fixColorValue] calls [setColor] once, with the empty string for
    ['remove'] and with the value itself otherwise; the colour it hands
    over is never ['remove'], and a colour it hands over passes through it
    unchanged. *)
Theorem fixColorValue_never_remove
    {R : Type} (value : string) (setColor : string -> R) :
  exists color : string,
    fixColorValue value setColor = setColor color
    /\ color <> "remove"%string
    /\ (value = "remove"%string -> color = ""%string)
    /\ (value <> "remove"%string -> color = value)
    /\ fixColorValue color setColor = setColor color.
Proof.
  unfold fixColorValue.
  destruct (String.eqb_spec value "remove") as [->|Hother].
  - exists ""%string; simpl.
    repeat split; (discriminate || congruence).
  - exists value.
    repeat split; try congruence.
    destruct (String.eqb_spec value "remove"); congruence.
Qed.

Lemma fixColorValue_never_remove_witness :
  "remove"%string = "remove"%string
  /\ exists color : string,
       fixColorValue "remove" (fun c : string => c) = color
       /\ color = ""%string.
Proof.
  split; [reflexivity|].
  destruct (fixColorValue_never_remove "remove" (fun c : string => c))
    as (color & Hcall & _ & Hremove & _ & _).
  exists color; split; [exact Hcall|].
  apply Hremove; reflexivity.
Defined.

(** X12: [generateColorSelector] builds exactly one colour-swatch item,
    whose [colors] are undefined exactly for the empty colour list and are
    the colour list otherwise.  Its action asks the editor for one
    [mceTableApplyCellStyle] of the given style: with the empty value when
    the user chose ['remove'], and otherwise with the chosen value, the
    same command [applyTableCellStyle] issues for an item of that value. *)
Theorem generateColorSelector_applies_style
    {Choice Editor : Type} `{EditorApi Editor}
    (colorList : list Choice) (style : string) :
  exists spec : FancyMenuItemSpec Choice Editor,
    generateColorSelector colorList style = [spec]
    /\ type spec = "fancymenuitem"%string
    /\ fancytype spec = "colorswatch"%string
    /\ (colors (initData spec) = None <-> colorList = [])
    /\ (colorList <> [] -> colors (initData spec) = Some colorList)
    /\ forall (data : SwatchData) (editor : Editor),
         (value data = "remove"%string ->
          onAction spec data editor
          = execCommand "mceTableApplyCellStyle" false
                        [(style, ""%string)] editor)
         /\ (value data <> "remove"%string ->
             onAction spec data editor
             = applyTableCellStyle style data editor).
Proof.
  eexists; split; [reflexivity|]; simpl.
  split; [reflexivity|]; split; [reflexivity|].
  split; [|split].
  - destruct colorList; simpl; split; (discriminate || reflexivity).
  - destruct colorList; simpl; [congruence|reflexivity].
  - intros data editor; unfold fixColorValue, applyTableCellStyle.
    destruct (String.eqb_spec (swatchValue data) "remove");
      split; (reflexivity || congruence).
Qed.

Lemma generateColorSelector_applies_style_witness :
  ([3; 4] <> [] /\ value {| swatchValue := "remove" |} = "remove"%string)
  /\ exists spec : FancyMenuItemSpec Z TypesOnly,
       generateColorSelector [3; 4] "background-color"%string = [spec]
       /\ colors (initData spec) = Some [3; 4]
       /\ onAction spec {| swatchValue := "remove" |}
                   {| rowType := "body"; colType := "td" |}
          = execCommand "mceTableApplyCellStyle" false
                        [("background-color"%string, ""%string)]
                        {| rowType := "body"; colType := "td" |}.
Proof.
  split; [split; [discriminate|reflexivity]|].
  destruct (generateColorSelector_applies_style
              (Editor := TypesOnly) [3; 4] "background-color")
    as (spec & Hspec & _ & _ & _ & Hcolors & Haction).
  exists spec; split; [exact Hspec|].
  split; [apply Hcolors; discriminate|].
  apply (proj1 (Haction {| swatchValue := "remove" |}
                        {| rowType := "body"; colType := "td" |})).
  reflexivity.
Defined.

Section Toggles.

Context {Editor : Type} `{EditorApi Editor}.

(** X13: [changeRowHeader] issues one [mceTableRowType] command whose type
    is ['header'] or ['body'] and is never the type the editor reports:
    ['body'] for a header row, ['header'] for any other. *)
Theorem changeRowHeader_requests_other_type (editor : Editor) :
  exists newType : string,
    changeRowHeader editor
    = execCommand "mceTableRowType" false [("type"%string, newType)] editor
    /\ newType <> queryCommandValue "mceTableRowType" editor
    /\ (newType = "header"%string \/ newType = "body"%string)
    /\ (newType = "body"%string
        <-> queryCommandValue "mceTableRowType" editor = "header"%string).
Proof.
  unfold changeRowHeader.
  destruct (String.eqb_spec (queryCommandValue "mceTableRowType" editor)
                            "header") as [E|E];
    eexists; (split; [reflexivity|]).
  - rewrite E; repeat split; (discriminate || now right || congruence).
  - repeat split; (discriminate || now left || congruence).
Qed.

(** X14: [changeColumnHeader] issues one [mceTableColType] command whose
    type is ['th'] or ['td'] and is never the type the editor reports:
    ['td'] for a [th] column, ['th'] for any other. *)
Theorem changeColumnHeader_requests_other_type (editor : Editor) :
  exists newType : string,
    changeColumnHeader editor
    = execCommand "mceTableColType" false [("type"%string, newType)] editor
    /\ newType <> queryCommandValue "mceTableColType" editor
    /\ (newType = "th"%string \/ newType = "td"%string)
    /\ (newType = "td"%string
        <-> queryCommandValue "mceTableColType" editor = "th"%string).
Proof.
  unfold changeColumnHeader.
  destruct (String.eqb_spec (queryCommandValue "mceTableColType" editor)
                            "th") as [E|E];
    eexists; (split; [reflexivity|]).
  - rewrite E; repeat split; (discriminate || now right || congruence).
  - repeat split; (discriminate || now left || congruence).
Qed.

(** X15: on an editor that reports the row type it was last given, the
    row toggle always changes the reported type, and toggling twice
    restores it when it was ['header'] or ['body']; from any other type
    two toggles end on ['body']. *)
Theorem changeRowHeader_twice (editor : Editor) :
  (forall (t : string) (e : Editor),
      queryCommandValue "mceTableRowType"
        (execCommand "mceTableRowType" false [("type"%string, t)] e) = t) ->
  let reported := queryCommandValue "mceTableRowType" in
  reported (changeRowHeader editor) <> reported editor
  /\ (reported editor = "header"%string \/ reported editor = "body"%string ->
      reported (changeRowHeader (changeRowHeader editor)) = reported editor)
  /\ (reported editor <> "header"%string ->
      reported (changeRowHeader (changeRowHeader editor)) = "body"%string).
Proof.
  intros Hlaw reported; subst reported.
  assert (forall e,
             queryCommandValue "mceTableRowType" (changeRowHeader e)
             = if String.eqb (queryCommandValue "mceTableRowType" e) "header"
               then "body"%string else "header"%string) as Hstep
    by (intros e; unfold changeRowHeader; apply Hlaw).
  rewrite !Hstep.
  destruct (String.eqb_spec (queryCommandValue "mceTableRowType" editor)
                            "header") as [E|E]; simpl.
  - rewrite E; repeat split; (discriminate || congruence).
  - repeat split; try congruence.
    intros [Hh|Hb]; congruence.
Qed.

(** X16: on an editor that reports the column type it was last given, the
    column toggle always changes the reported type, and toggling twice
    restores it when it was ['th'] or ['td']; from any other type two
    toggles end on ['td']. *)
Theorem changeColumnHeader_twice (editor : Editor) :
  (forall (t : string) (e : Editor),
      queryCommandValue "mceTableColType"
        (execCommand "mceTableColType" false [("type"%string, t)] e) = t) ->
  let reported := queryCommandValue "mceTableColType" in
  reported (changeColumnHeader editor) <> reported editor
  /\ (reported editor = "th"%string \/ reported editor = "td"%string ->
      reported (changeColumnHeader (changeColumnHeader editor))
      = reported editor)
  /\ (reported editor <> "th"%string ->
      reported (changeColumnHeader (changeColumnHeader editor))
      = "td"%string).
Proof.
  intros Hlaw reported; subst reported.
  assert (forall e,
             queryCommandValue "mceTableColType" (changeColumnHeader e)
             = if String.eqb (queryCommandValue "mceTableColType" e) "th"
               then "td"%string else "th"%string) as Hstep
    by (intros e; unfold changeColumnHeader; apply Hlaw).
  rewrite !Hstep.
  destruct (String.eqb_spec (queryCommandValue "mceTableColType" editor)
                            "th") as [E|E]; simpl.
  - rewrite E; repeat split; (discriminate || congruence).
  - repeat split; try congruence.
    intros [Hh|Hb]; congruence.
Qed.

End Toggles.

Lemma changeRowHeader_twice_witness :
  (forall (t : string) (e : TypesOnly),
      queryCommandValue "mceTableRowType"
        (execCommand "mceTableRowType" false [("type"%string, t)] e) = t)
  /\ queryCommandValue "mceTableRowType"
       {| rowType := "body"; colType := "td" |} = "body"%string
  /\ queryCommandValue "mceTableRowType"
       (changeRowHeader
          (changeRowHeader {| rowType := "body"; colType := "td" |}))
     = queryCommandValue "mceTableRowType"
         {| rowType := "body"; colType := "td" |}.
Proof.
  split; [reflexivity|]; split; [reflexivity|].
  destruct (changeRowHeader_twice {| rowType := "body"; colType := "td" |})
    as (_ & Hback & _); [reflexivity|].
  apply Hback; right; reflexivity.
Defined.

Lemma changeColumnHeader_twice_witness :
  (forall (t : string) (e : TypesOnly),
      queryCommandValue "mceTableColType"
        (execCommand "mceTableColType" false [("type"%string, t)] e) = t)
  /\ queryCommandValue "mceTableColType"
       {| rowType := "body"; colType := "th" |} = "th"%string
  /\ queryCommandValue "mceTableColType"
       (changeColumnHeader
          (changeColumnHeader {| rowType := "body"; colType := "th" |}))
     = queryCommandValue "mceTableColType"
         {| rowType := "body"; colType := "th" |}.
Proof.
  split; [reflexivity|]; split; [reflexivity|].
  destruct (changeColumnHeader_twice
              {| rowType := "body"; colType := "th" |})
    as (_ & Hback & _); [reflexivity|].
  apply Hback; left; reflexivity.
Defined.

End TableUiFacts.

(** ** Properties of the system event names *)

Module SystemEventsFacts.

Import String SystemEvents.

(** X17: the module exports seventeen system events besides [tapOrClick];
    their names are pairwise distinct and all in the [alloy.] name space.
    [tapOrClick] is [tap] on a touch device and the native click event
    otherwise, so off touch devices it differs from every exported Alloy
    event as soon as the native name is outside the [alloy.] name
    space. *)
Theorem system_event_names_distinct :
  List.length exported = 17%nat
  /\ NoDup (List.map (fun event => event tt) exported)
  /\ Forall (fun event => prefix "alloy." (event tt) = true) exported
  /\ (forall click : unit -> string, tapOrClick true click = tap)
  /\ (forall click : unit -> string, tapOrClick false click = click)
  /\ (forall click : unit -> string,
         prefix "alloy." (click tt) = false ->
         ~ In (tapOrClick false click tt)
              (List.map (fun event => event tt) exported)).
Proof.
  split; [reflexivity|].
  split; [|split; [|split; [|split]]].
  - repeat constructor; simpl; intuition discriminate.
  - repeat constructor.
  - reflexivity.
  - reflexivity.
  - intros click Hnative Hin.
    apply in_map_iff in Hin as (event & Hname & Hevent).
    assert (prefix "alloy." (event tt) = true) as Halloy.
    { assert (Forall (fun e => prefix "alloy." (e tt) = true) exported)
        as Hall by repeat constructor.
      rewrite Forall_forall in Hall; now apply Hall. }
    simpl in Hname; congruence.
Qed.

Lemma system_event_names_distinct_witness :
  prefix "alloy." "click" = false
  /\ tapOrClick false (Fun.constant "click"%string) tt = "click"%string
  /\ ~ In (tapOrClick false (Fun.constant "click"%string) tt)
         (List.map (fun event => event tt) exported).
Proof.
  destruct system_event_names_distinct
    as (_ & _ & _ & _ & Hclick & Hfresh).
  split; [reflexivity|].
  split; [now rewrite Hclick|].
  apply Hfresh; reflexivity.
Defined.

End SystemEventsFacts.
